(** * Abscissa core: component registry, lifecycle and global configuration

    The crate root [src/abscissa/src/lib.rs] re-exports
    [application::{boot, Application, Components}], [config::{ConfigReader,
    GlobalConfig}] and [error::{FrameworkError, FrameworkErrorKind}]; the
    modules themselves are not part of the sources at hand.  Every
    operation below is therefore modelled from the specification of those
    modules, as recorded in each definition's doc comment. *)

From Stdlib Require Import List String Bool Arith Lia.
From Stdlib Require Import Relation_Operators Operators_Properties ListDec Permutation.
Import ListNotations.
Open Scope string_scope.
Open Scope list_scope.

(** ** Error taxonomy *)

Definition ComponentId := string.

(** Modelled from the spec: the [error] module (FrameworkError,
    FrameworkErrorKind), section 4.4: one kind per failure class, with the
    [Component] sub-cases distinguishable. *)
Inductive ComponentError :=
| DuplicateId (id : ComponentId)
| CyclicDependency (pending : list ComponentId)
| UnknownDependency (component dependency : ComponentId)
| InitFailed (id : ComponentId)
| ShutdownFailed (ids : list ComponentId).

Inductive ConfigError :=
| NotInitialized
| LoadFailed (cause : string).

Inductive FrameworkError :=
| Config (e : ConfigError)
| Component (e : ComponentError)
| Io (msg : string)
| Parse (msg : string)
| Other (msg : string).

Inductive Result (A : Type) :=
| Ok (a : A)
| Err (e : FrameworkError).
Arguments Ok {A} a.
Arguments Err {A} e.

(** ** Components and the registry *)

Inductive ComponentState :=
| Registered | Initializing | Ready | ShuttingDown | Stopped | Failed.

Record ComponentT := mkComponent {
  id : ComponentId;
  dependencies : list ComponentId
}.

(** Registration order is the list order. *)
Definition Registry := list ComponentT.

Definition mem (x : ComponentId) (l : list ComponentId) : bool :=
  existsb (String.eqb x) l.

Definition ids (reg : Registry) : list ComponentId := map id reg.

(** Modelled from the spec: [Components::register] (section 4.2), which
    adds a component under its id and fails with [Component::DuplicateId]
    when the id is already taken.  State passing: the registry is returned
    alongside the outcome. *)
Definition register (reg : Registry) (c : ComponentT) : Result unit * Registry :=
  if mem (id c) (ids reg)
  then (Err (Component (DuplicateId (id c))), reg)
  else (Ok tt, reg ++ [c]).

(** The registries the program can build: components submitted one after
    the other to [register], starting from the empty registry. *)
Fixpoint register_all (reg : Registry) (cs : list ComponentT) : Registry :=
  match cs with
  | [] => reg
  | c :: cs' => register_all (snd (register reg c)) cs'
  end.

Definition registry_of (cs : list ComponentT) : Registry := register_all [] cs.

(** ** Boot order *)

Definition registered (reg : Registry) (d : ComponentId) : bool := mem d (ids reg).

(** A component is ready once every registered dependency is emitted;
    unregistered dependencies are reported separately below. *)
Definition ready (reg : Registry) (done : list ComponentId) (c : ComponentT) : bool :=
  forallb (fun d => negb (registered reg d) || mem d done) (dependencies c).

Definition is_pending (done : list ComponentId) (c : ComponentT) : bool :=
  negb (mem (id c) done).

Definition pending (reg : Registry) (done : list ComponentId) : list ComponentT :=
  filter (is_pending done) reg.

(** Among the stuck components [ps], the dependency of [x] that keeps it
    waiting: its first dependency that is itself stuck. *)
Definition blocker (ps : list ComponentT) (x : ComponentId) : option ComponentId :=
  match find (fun c => String.eqb (id c) x) ps with
  | Some c => find (fun d => mem d (ids ps)) (dependencies c)
  | None => None
  end.

(** The part of [l] from the first occurrence of [x] on. *)
Fixpoint from_first (x : ComponentId) (l : list ComponentId) : list ComponentId :=
  match l with
  | [] => []
  | y :: l' => if String.eqb x y then l else from_first x l'
  end.

(** Follow blockers from [x]; [path] is the walk so far.  The first id met
    twice closes the cycle, which is returned from that id on. *)
Fixpoint trace_cycle (fuel : nat) (ps : list ComponentT) (x : ComponentId)
    (path : list ComponentId) : list ComponentId :=
  if mem x path then from_first x path
  else
    match fuel with
    | O => path ++ [x]
    | S fuel' =>
        match blocker ps x with
        | Some y => trace_cycle fuel' ps y (path ++ [x])
        | None => path ++ [x]
        end
    end.

(** The offending cycle among the stuck components, walked from the first
    of them in registration order. *)
Definition cycle_of (ps : list ComponentT) : list ComponentId :=
  match ps with
  | [] => []
  | c :: _ => trace_cycle (List.length ps) ps (id c) []
  end.

Definition finish (reg : Registry) (done : list ComponentId) : Result (list ComponentId) :=
  match pending reg done with
  | [] => Ok done
  | ps => Err (Component (CyclicDependency (cycle_of ps)))
  end.

(** Modelled from the spec: the topological sort of
    [Components::resolve_boot_order] (section 4.2).  At each step the first
    component in registration order that is not yet emitted and whose
    dependencies are all emitted comes next (registration-order tie-break);
    when no component qualifies but some remain, they are stuck on a cycle,
    which is reported as [Component::CyclicDependency]. *)
Fixpoint kahn (fuel : nat) (reg : Registry) (done : list ComponentId)
  : Result (list ComponentId) :=
  match fuel with
  | O => finish reg done
  | S fuel' =>
      match find (fun c => is_pending done c && ready reg done c) reg with
      | Some c => kahn fuel' reg (done ++ [id c])
      | None => finish reg done
      end
  end.

(** First declared dependency naming an unregistered id, if any. *)
Fixpoint find_unknown (all : Registry) (reg : Registry)
  : option (ComponentId * ComponentId) :=
  match reg with
  | [] => None
  | c :: reg' =>
      match find (fun d => negb (registered all d)) (dependencies c) with
      | Some d => Some (id c, d)
      | None => find_unknown all reg'
      end
  end.

(** Modelled from the spec: [Components::resolve_boot_order] (section
    4.2).  The cycle check comes first, the unknown-dependency check second,
    in the order the spec lists the two failures. *)
Definition resolve_boot_order (reg : Registry) : Result (list ComponentId) :=
  match kahn (List.length reg) reg [] with
  | Err e => Err e
  | Ok order =>
      match find_unknown reg reg with
      | Some (c, d) => Err (Component (UnknownDependency c d))
      | None => Ok order
      end
  end.

(** The dependency relation: [a] declares a dependency on [b]. *)
Definition dep_edge (reg : Registry) (a b : ComponentId) : Prop :=
  exists c, In c reg /\ id c = a /\ In b (dependencies c).

Definition acyclic (reg : Registry) : Prop :=
  forall a, ~ clos_trans _ (dep_edge reg) a a.

Definition cA := mkComponent "a" [].
Definition cB := mkComponent "b" ["a"].
Definition cC := mkComponent "c" ["a"].

(** An [init] hook that fails for ["b"] only. *)
Definition init_fails_b (x : ComponentId) : bool := negb (String.eqb x "b").

(** ** Component lifecycle *)

Definition States := ComponentId -> ComponentState.

Definition all_registered : States := fun _ => Registered.

Definition set_state (st : States) (x : ComponentId) (s : ComponentState) : States :=
  fun y => if String.eqb y x then s else st y.

(** One lifecycle transition of one component. *)
Record Transition := mkTransition {
  t_id : ComponentId;
  t_from : ComponentState;
  t_to : ComponentState
}.

(** Hook invocations, in the order they happen. *)
Inductive HookCall :=
| CallInit (x : ComponentId)
| CallShutdown (x : ComponentId).

(** Modelled from the spec: the registry state driven by [Components]
    (sections 3 and 4.2): per-component states, the recorded boot order
    (components that reached [Ready], in that order), the log of state
    transitions and the log of hook invocations. *)
Record Application := mkApplication {
  components : Registry;
  states : States;
  boot_order : list ComponentId;
  transitions : list Transition;
  calls : list HookCall
}.

Definition new_application (reg : Registry) : Application :=
  mkApplication reg all_registered [] [] [].

(** Move component [x] to state [s], logging the transition. *)
Definition transition (app : Application) (x : ComponentId) (s : ComponentState)
  : Application :=
  mkApplication (components app) (set_state (states app) x s) (boot_order app)
    (transitions app ++ [mkTransition x (states app x) s]) (calls app).

Definition call (app : Application) (h : HookCall) : Application :=
  mkApplication (components app) (states app) (boot_order app)
    (transitions app) (calls app ++ [h]).

Definition record_booted (app : Application) (x : ComponentId) : Application :=
  mkApplication (components app) (states app) (boot_order app ++ [x])
    (transitions app) (calls app).

(** Modelled from the spec: the boot loop of [Components::boot] (section
    4.2).  Each component goes to [Initializing], its [init] hook runs
    (outcome given by [init]), then it goes to [Ready], or to [Failed] and
    the loop stops with [Component::InitFailed]: fail-fast, nothing rolled
    back, later components left [Registered]. *)
Fixpoint boot_components (init : ComponentId -> bool) (order : list ComponentId)
  (app : Application) : Result unit * Application :=
  match order with
  | [] => (Ok tt, app)
  | x :: rest =>
      let app1 := call (transition app x Initializing) (CallInit x) in
      if init x
      then boot_components init rest (record_booted (transition app1 x Ready) x)
      else (Err (Component (InitFailed x)), transition app1 x Failed)
  end.

(** Modelled from the spec: [Components::boot] (section 4.2): resolve the
    boot order first, and boot nothing when that fails. *)
Definition components_boot (init : ComponentId -> bool) (reg : Registry)
  : Result unit * Application :=
  let app := new_application reg in
  match resolve_boot_order reg with
  | Err e => (Err e, app)
  | Ok order => boot_components init order app
  end.

(** Modelled from the spec: the teardown loop of [shutdown] (section 4.2
    and 7): every component of the list goes to [ShuttingDown], its
    [shutdown] hook runs (outcome given by [hook]), then it goes to
    [Stopped], or to [Failed] with its id collected; the loop never stops
    early. *)
Fixpoint shutdown_components (hook : ComponentId -> bool) (xs : list ComponentId)
  (app : Application) (errs : list ComponentId) : list ComponentId * Application :=
  match xs with
  | [] => (errs, app)
  | x :: rest =>
      let app1 := call (transition app x ShuttingDown) (CallShutdown x) in
      if hook x
      then shutdown_components hook rest (transition app1 x Stopped) errs
      else shutdown_components hook rest (transition app1 x Failed) (errs ++ [x])
  end.

(** Modelled from the spec: [Components::shutdown] (sections 4.2 and 7):
    reverse of the recorded boot order, failures reported together at the
    end. *)
Definition components_shutdown (hook : ComponentId -> bool) (app : Application)
  : Result unit * Application :=
  let (errs, app') := shutdown_components hook (rev (boot_order app)) app [] in
  (match errs with
   | [] => Ok tt
   | _ => Err (Component (ShutdownFailed errs))
   end, app').

(** A whole run: boot, then shut down whatever reached [Ready]. *)
Definition lifecycle (init hook : ComponentId -> bool) (reg : Registry) : Application :=
  snd (components_shutdown hook (snd (components_boot init reg))).

(** Modelled from the spec: the per-component state machine (section 4.2):
    Registered -> Initializing -> Ready -> ShuttingDown -> Stopped, and
    Failed from Initializing or ShuttingDown. *)
Definition valid_transition (s s' : ComponentState) : bool :=
  match s, s' with
  | Registered, Initializing
  | Initializing, Ready
  | Initializing, Failed
  | Ready, ShuttingDown
  | ShuttingDown, Stopped
  | ShuttingDown, Failed => true
  | _, _ => false
  end.

(** A log replays from [st] when each transition leaves the state the
    component is in and follows the state machine. *)
Fixpoint replay (st : States) (tr : list Transition) : Prop :=
  match tr with
  | [] => True
  | t :: tr' =>
      st (t_id t) = t_from t /\ valid_transition (t_from t) (t_to t) = true /\
      replay (set_state st (t_id t) (t_to t)) tr'
  end.

Fixpoint apply_log (st : States) (tr : list Transition) : States :=
  match tr with
  | [] => st
  | t :: tr' => apply_log (set_state st (t_id t) (t_to t)) tr'
  end.

(** The state field agrees with the log, and the log follows the state
    machine from the all-[Registered] start. *)
Definition log_consistent (app : Application) : Prop :=
  replay all_registered (transitions app) /\
  forall y, states app y = apply_log all_registered (transitions app) y.

(** Each transition to [Ready] comes after a transition to [Ready] of every
    declared dependency of that component. *)
Definition ready_after_deps (reg : Registry) (tr : list Transition) : Prop :=
  forall pre t suf c d,
    tr = pre ++ t :: suf -> t_to t = Ready -> In c reg -> id c = t_id t ->
    In d (dependencies c) ->
    exists t', In t' pre /\ t_id t' = d /\ t_to t' = Ready.

Definition shutdown_hooks_invoked (cs : list HookCall) : list ComponentId :=
  flat_map (fun h => match h with CallShutdown x => [x] | CallInit _ => [] end) cs.

(** ** Global configuration cell *)

(** Modelled from the spec: [config::GlobalConfig] (sections 3 and 4.1):
    uninitialized at process start, then holding one whole value. *)
Definition GlobalConfig (T : Type) : Type := option T.

Definition global_config_new {T : Type} : GlobalConfig T := None.

(** Modelled from the spec: [GlobalConfig::get] (section 4.1), failing with
    [Config::NotInitialized] before the first [set]. *)
Definition get {T : Type} (cell : GlobalConfig T) : Result T :=
  match cell with
  | None => Err (Config NotInitialized)
  | Some v => Ok v
  end.

(** Modelled from the spec: [GlobalConfig::set] (section 4.1), replacing
    the value as a unit. *)
Definition set {T : Type} (cell : GlobalConfig T) (v : T) : GlobalConfig T := Some v.

Inductive ConfigOp (T : Type) :=
| OpGet
| OpSet (v : T).
Arguments OpGet {T}.
Arguments OpSet {T} v.

(** A sequence of operations on one cell, with the results of its
    [get] calls in order. *)
Fixpoint run_ops {T : Type} (cell : GlobalConfig T) (ops : list (ConfigOp T))
  : list (Result T) * GlobalConfig T :=
  match ops with
  | [] => ([], cell)
  | OpGet :: ops' => let (rs, c) := run_ops cell ops' in (get cell :: rs, c)
  | OpSet v :: ops' => run_ops (set cell v) ops'
  end.

Definition no_set {T : Type} (ops : list (ConfigOp T)) : Prop :=
  forall v, ~ In (OpSet v) ops.

(** *** The cell under concurrent access *)

(** Modelled from the spec and the crate docs ("a RwLock on a
    lazy_static", lib.rs lines 14-16; section 4.1): the value is a struct,
    here of two fields, copied field by field.  A [get] takes the read
    lock, reads both fields and releases; a [set] takes the write lock,
    writes both fields and releases.  Readers [0 .. N-1] run one [get]
    each, writer [j] runs one [set] of the [j]-th value of [ws]. *)
Module RwCell.
Section RwCell.
Context {A B : Type}.

Inductive ReaderState :=
| RIdle
| RHold
| RGot1 (a : A)
| RDone (a : A) (b : B).

Inductive WriterState :=
| WIdle | WHold | WWrote1 | WWrote2 | WDone.

Record state := mkState {
  field1 : A;
  field2 : B;
  readers_in : list nat;
  writer_in : option nat;
  rd : nat -> ReaderState;
  wr : nat -> WriterState
}.

Definition upd {X : Type} (f : nat -> X) (i : nat) (x : X) : nat -> X :=
  fun k => if Nat.eqb k i then x else f k.

Definition init (v0 : A * B) : state :=
  mkState (fst v0) (snd v0) [] None (fun _ => RIdle) (fun _ => WIdle).

Definition writer_active (w : WriterState) : bool :=
  match w with WHold | WWrote1 | WWrote2 => true | _ => false end.

Inductive step (N : nat) (ws : list (A * B)) : state -> state -> Prop :=
| read_lock s i :
    i < N -> rd s i = RIdle -> writer_in s = None ->
    step N ws s (mkState (field1 s) (field2 s) (i :: readers_in s) (writer_in s)
                   (upd (rd s) i RHold) (wr s))
| read_field1 s i :
    rd s i = RHold ->
    step N ws s (mkState (field1 s) (field2 s) (readers_in s) (writer_in s)
                   (upd (rd s) i (RGot1 (field1 s))) (wr s))
| read_field2_unlock s i a :
    rd s i = RGot1 a ->
    step N ws s (mkState (field1 s) (field2 s) (remove Nat.eq_dec i (readers_in s))
                   (writer_in s) (upd (rd s) i (RDone a (field2 s))) (wr s))
| write_lock s j v :
    nth_error ws j = Some v -> wr s j = WIdle ->
    writer_in s = None -> readers_in s = [] ->
    step N ws s (mkState (field1 s) (field2 s) (readers_in s) (Some j)
                   (rd s) (upd (wr s) j WHold))
| write_field1 s j v :
    nth_error ws j = Some v -> wr s j = WHold ->
    step N ws s (mkState (fst v) (field2 s) (readers_in s) (writer_in s)
                   (rd s) (upd (wr s) j WWrote1))
| write_field2 s j v :
    nth_error ws j = Some v -> wr s j = WWrote1 ->
    step N ws s (mkState (field1 s) (snd v) (readers_in s) (writer_in s)
                   (rd s) (upd (wr s) j WWrote2))
| write_unlock s j :
    wr s j = WWrote2 ->
    step N ws s (mkState (field1 s) (field2 s) (readers_in s) None
                   (rd s) (upd (wr s) j WDone)).

Definition reachable (N : nat) (ws : list (A * B)) (v0 : A * B) (s : state) : Prop :=
  clos_refl_trans _ (step N ws) (init v0) s.

Definition holding (r : ReaderState) : Prop :=
  match r with RHold | RGot1 _ => True | _ => False end.

(** The lock discipline and what each thread has seen. *)
Definition rw_inv (ws : list (A * B)) (v0 : A * B) (s : state) : Prop :=
  (forall i, holding (rd s i) <-> In i (readers_in s)) /\
  (forall j, writer_active (wr s j) = true <-> writer_in s = Some j) /\
  (writer_in s <> None -> readers_in s = []) /\
  (forall j, wr s j <> WIdle -> exists v, nth_error ws j = Some v) /\
  (forall i a, rd s i = RGot1 a -> a = field1 s) /\
  (forall i a b, rd s i = RDone a b -> (a, b) = v0 \/ In (a, b) ws) /\
  (writer_in s = None -> (field1 s, field2 s) = v0 \/ In (field1 s, field2 s) ws) /\
  (forall j v, nth_error ws j = Some v -> wr s j = WWrote1 -> field1 s = fst v) /\
  (forall j v, nth_error ws j = Some v -> wr s j = WWrote2 -> (field1 s, field2 s) = v).
End RwCell.
End RwCell.

(** *** Where the cell lives *)

(** Modelled from the spec: sections 3 and 9.  Each [Application] is
    constructed with its own Global Configuration Cell, uninitialized, and
    owns it; several Applications, hence several cells, may coexist in one
    process. *)
Record AppInstance (T : Type) := mkAppInstance {
  app_state : Application;
  app_config : GlobalConfig T
}.
Arguments mkAppInstance {T} _ _.
Arguments app_state {T} _.
Arguments app_config {T} _.

Definition new_app_instance {T : Type} (reg : Registry) : AppInstance T :=
  mkAppInstance (new_application reg) global_config_new.

(** The Applications living in one process, each addressed by the index
    it was constructed at. *)
Definition spawn_app {T : Type} (ps : list (AppInstance T)) (reg : Registry)
  : nat * list (AppInstance T) :=
  (List.length ps, ps ++ [new_app_instance reg]).

(** [get] on the cell of Application [i]; [None] when there is no such
    Application. *)
Definition app_get {T : Type} (ps : list (AppInstance T)) (i : nat) : option (Result T) :=
  option_map (fun a => get (app_config a)) (nth_error ps i).

Fixpoint update_nth {X : Type} (f : X -> X) (i : nat) (l : list X) : list X :=
  match l, i with
  | [], _ => []
  | x :: l', O => f x :: l'
  | x :: l', S i' => x :: update_nth f i' l'
  end.

(** [set] on the cell of Application [i]; nothing when there is no such
    Application. *)
Definition app_set {T : Type} (ps : list (AppInstance T)) (i : nat) (v : T)
  : list (AppInstance T) :=
  update_nth (fun a => mkAppInstance (app_state a) (set (app_config a) v)) i ps.

(** Properties of an ordering, stated against the registry. *)

(** Every dependency of a component is emitted before it. *)
Definition deps_before (reg : Registry) (order : list ComponentId) : Prop :=
  forall pre x suf c d,
    order = pre ++ x :: suf -> In c reg -> id c = x ->
    In d (dependencies c) -> In d pre.

(** Registration-order tie-break: a component registered before [x] that is
    still missing when [x] is emitted had an unsatisfied dependency then. *)
Definition registration_tie_break (reg : Registry) (order : list ComponentId) : Prop :=
  forall pre x suf r1 cx r2 c,
    order = pre ++ x :: suf -> reg = r1 ++ cx :: r2 -> id cx = x ->
    In c r1 -> ~ In (id c) pre ->
    exists d, In d (dependencies c) /\ ~ In d pre.

(** Walks along a relation. *)
Fixpoint chain {A : Type} (R : A -> A -> Prop) (x : A) (l : list A) : Prop :=
  match l with
  | [] => True
  | y :: l' => R x y /\ chain R y l'
  end.

(** ** Crate root: items and their [cfg] gates *)

(** The configuration a crate is compiled under: the enabled Cargo
    features and whether [cfg(test)] holds. *)
Record Env := mkEnv { features : list string; cfg_test : bool }.

(** The [cfg] predicates used in [src/abscissa/src/lib.rs]. *)
#[warnings="-register-all"]
Inductive Cfg :=
| CfgFeature (f : string)
| CfgTest
| CfgAll (cs : list Cfg).

Fixpoint cfg_holds (env : Env) (c : Cfg) : bool :=
  match c with
  | CfgFeature f => mem f (features env)
  | CfgTest => cfg_test env
  | CfgAll cs => forallb (cfg_holds env) cs
  end.

(** An item without a [cfg] attribute is always compiled. *)
Definition gate_holds (env : Env) (g : option Cfg) : bool :=
  match g with
  | None => true
  | Some c => cfg_holds env c
  end.

Inductive Visibility := Public | Private.

(** The items of the crate root: [extern crate], [mod] and [use], each
    with its [cfg] gate; [macro_use] records [#[macro_use]]. *)
Inductive Item :=
| ExternCrate (gate : option Cfg) (vis : Visibility) (macro_use : bool) (name : string)
| ModDecl (gate : option Cfg) (vis : Visibility) (macro_use : bool) (name : string)
| UseDecl (gate : option Cfg) (vis : Visibility) (module : string) (names : list string).

Definition item_gate (it : Item) : option Cfg :=
  match it with
  | ExternCrate g _ _ _ | ModDecl g _ _ _ | UseDecl g _ _ _ => g
  end.

Definition feature (f : string) : option Cfg := Some (CfgFeature f).

(** [src/abscissa/src/lib.rs], lines 71-123, in source order. *)
Definition lib_rs_items : list Item := [
  ExternCrate None Private true "abscissa_derive";
  ExternCrate None Public false "failure";
  ExternCrate None Private true "lazy_static";
  ExternCrate (feature "logging") Public false "log";
  ExternCrate (feature "config") Private false "serde";
  ExternCrate (feature "simplelog") Private false "simplelog";
  ExternCrate None Private false "term";
  ExternCrate (Some (CfgAll [CfgTest; CfgFeature "options"])) Private true "assert_matches";
  ModDecl None Public true "macros";
  ModDecl (feature "application") Private false "application";
  ModDecl (feature "options") Private false "command";
  ModDecl (feature "config") Public false "config";
  ModDecl None Private false "error";
  ModDecl (feature "logging") Private false "logging";
  ModDecl (feature "options") Public false "options";
  ModDecl (feature "secrets") Public false "secrets";
  ModDecl None Public false "shell";
  ModDecl None Public false "util";
  UseDecl (feature "application") Public "application"
    ["boot"; "Application"; "ApplicationPath"; "Component"; "Components"];
  UseDecl (feature "options") Public "command" ["Callable"; "Command"];
  UseDecl None Public "config" ["ConfigReader"; "GlobalConfig"];
  UseDecl None Public "error" ["Error"; "Fail"; "FrameworkError"; "FrameworkErrorKind"];
  UseDecl (feature "logging") Public "logging" ["LoggingConfig"];
  UseDecl (feature "options") Public "options" ["Options"];
  UseDecl (feature "secrets") Public "secrets" ["Secret"];
  UseDecl None Public "shell" ["status"; "ColorConfig"; "Stream"];
  UseDecl (feature "application") Public "util" ["Version"]
].

(** The items that survive [cfg] stripping. *)
Definition enabled_items (env : Env) : list Item :=
  filter (fun it => gate_holds env (item_gate it)) lib_rs_items.

Definition compiled_modules (env : Env) : list string :=
  flat_map (fun it => match it with ModDecl _ _ _ n => [n] | _ => [] end) (enabled_items env).

Definition public_modules (env : Env) : list string :=
  flat_map (fun it => match it with ModDecl _ Public _ n => [n] | _ => [] end)
    (enabled_items env).

Definition linked_crates (env : Env) : list string :=
  flat_map (fun it => match it with ExternCrate _ _ _ n => [n] | _ => [] end)
    (enabled_items env).

(** [pub extern crate]: crates re-exported at the root. *)
Definition public_crates (env : Env) : list string :=
  flat_map (fun it => match it with ExternCrate _ Public _ n => [n] | _ => [] end)
    (enabled_items env).

(** Names re-exported at the crate root by [pub use].  A [use] of a
    module that is not compiled exports nothing: it is an unresolved import
    (see [unresolved_imports]). *)
Definition root_exports (env : Env) : list string :=
  flat_map (fun it => match it with
                      | UseDecl _ Public m ns => if mem m (compiled_modules env) then ns else []
                      | _ => []
                      end)
    (enabled_items env).

(** Name resolution of the root [use]s: those whose module is not
    compiled, each with the names it imports. *)
Definition unresolved_imports (env : Env) : list (string * list string) :=
  flat_map (fun it => match it with
                      | UseDecl _ _ m ns => if mem m (compiled_modules env) then [] else [(m, ns)]
                      | _ => []
                      end)
    (enabled_items env).

(** [macro_rules!] scoping is textual: the macros of a [#[macro_use] mod]
    are in scope in the modules declared after it. *)
Fixpoint after_macro_use (seen : bool) (items : list Item) : list string :=
  match items with
  | [] => []
  | ModDecl _ _ mu n :: rest => (if seen then [n] else []) ++ after_macro_use (seen || mu) rest
  | _ :: rest => after_macro_use seen rest
  end.

Definition macro_scoped_modules (env : Env) : list string :=
  after_macro_use false (enabled_items env).

(** The features [lib.rs] tests, and an environment cut down to them. *)
Definition crate_features : list string :=
  ["application"; "options"; "config"; "logging"; "secrets"; "simplelog"].

Definition canon (env : Env) : Env :=
  mkEnv (filter (fun f => mem f (features env)) crate_features) (cfg_test env).

(** ** Examples *)

Example resolve_abc :
  resolve_boot_order (registry_of [cC; cB; cA]) = Ok ["a"; "c"; "b"].
Proof. reflexivity. Qed.

Example resolve_cycle :
  resolve_boot_order (registry_of [mkComponent "a" ["b"]; mkComponent "b" ["a"]])
  = Err (Component (CyclicDependency ["a"; "b"])).
Proof. reflexivity. Qed.

Example boot_abc :
  let app := snd (components_boot (fun x => negb (String.eqb x "b")) (registry_of [cA; cB; cC])) in
  (boot_order app, states app "a", states app "b", states app "c", calls app)
  = (["a"], Ready, Failed, Registered, [CallInit "a"; CallInit "b"]).
Proof. reflexivity. Qed.

Example shutdown_ab :
  let app := lifecycle (fun _ => true) (fun x => negb (String.eqb x "b")) (registry_of [cA; cB]) in
  (shutdown_hooks_invoked (calls app), states app "a", states app "b")
  = (["b"; "a"], Stopped, Failed).
Proof. reflexivity. Qed.

(** ** Library lemmas *)

Lemma mem_spec x l : mem x l = true <-> In x l.
Proof.
  unfold mem. rewrite existsb_exists. split.
  - intros [y [Hy E]]. apply String.eqb_eq in E. subst. exact Hy.
  - intros H. exists x. split; [exact H | apply String.eqb_refl].
Qed.

Lemma mem_false x l : mem x l = false <-> ~ In x l.
Proof.
  rewrite <- mem_spec. destruct (mem x l); split; congruence.
Qed.

Lemma string_decidable : ListDec.decidable_eq string.
Proof.
  intros x y. destruct (string_dec x y); [left | right]; assumption.
Qed.

Lemma forallb_false_exists {A : Type} (f : A -> bool) l :
  forallb f l = false -> exists x, In x l /\ f x = false.
Proof.
  induction l as [|a l IH]; simpl; [discriminate|].
  destruct (f a) eqn:E; simpl; intros H.
  - destruct (IH H) as [x [Hx Hf]]. eauto.
  - eauto.
Qed.

Lemma find_split {A : Type} (p : A -> bool) l x :
  find p l = Some x ->
  exists l1 l2, l = l1 ++ x :: l2 /\ p x = true /\ forall y, In y l1 -> p y = false.
Proof.
  induction l as [|a l IH]; simpl; [discriminate|].
  destruct (p a) eqn:E; intros H.
  - injection H as <-. exists [], l. simpl. intuition.
  - destruct (IH H) as [l1 [l2 [-> [Hx Hl1]]]].
    exists (a :: l1), l2. simpl. intuition (subst; auto).
Qed.

Lemma nodup_map_inj {A B : Type} (f : A -> B) l a b :
  NoDup (map f l) -> In a l -> In b l -> f a = f b -> a = b.
Proof.
  induction l as [|y l IH]; simpl; [tauto|].
  intros Hnd Ha Hb E. inversion Hnd as [|? ? Hy Hnd']; subst.
  destruct Ha as [<-|Ha], Hb as [<-|Hb]; auto.
  - exfalso. apply Hy. rewrite E. apply in_map. exact Hb.
  - exfalso. apply Hy. rewrite <- E. apply in_map. exact Ha.
Qed.

Lemma nodup_map_split {A B : Type} (f : A -> B) l1 a l2 r1 b r2 :
  NoDup (map f (l1 ++ a :: l2)) ->
  l1 ++ a :: l2 = r1 ++ b :: r2 -> f a = f b -> l1 = r1 /\ a = b.
Proof.
  revert r1. induction l1 as [|y l1 IH]; intros r1 Hnd E Ef;
    destruct r1 as [|z r1]; simpl in *.
  - injection E as Eh Et. subst. auto.
  - injection E as Eh Et. subst. inversion Hnd as [|? ? Hy _]; subst.
    exfalso. apply Hy. rewrite Ef. apply in_map, in_or_app. right. left. reflexivity.
  - injection E as Eh Et. subst. inversion Hnd as [|? ? Hy _]; subst.
    exfalso. apply Hy. rewrite map_app. apply in_or_app. right. simpl. left. exact Ef.
  - injection E as Eh Et. subst. inversion Hnd; subst.
    destruct (IH r1) as [-> ->]; auto.
Qed.

Lemma snoc_split {A : Type} (l : list A) z pre y suf :
  pre ++ y :: suf = l ++ [z] ->
  (suf = [] /\ pre = l /\ y = z) \/
  (exists suf', suf = suf' ++ [z] /\ l = pre ++ y :: suf').
Proof.
  intros E. induction suf as [|w suf' _] using rev_ind.
  - left. apply app_inj_tail in E. destruct E. auto.
  - right. exists suf'. rewrite app_comm_cons, app_assoc in E.
    apply app_inj_tail in E. destruct E as [E ->]. auto.
Qed.

Lemma chain_app_cons {A : Type} (R : A -> A -> Prop) x l1 y l2 :
  chain R x (l1 ++ y :: l2) -> clos_trans _ R x y /\ chain R y l2.
Proof.
  revert x. induction l1 as [|z l1 IH]; simpl; intros x [Hxz Hc].
  - split; [apply t_step|]; assumption.
  - destruct (IH z Hc) as [Hzy Hc']. split; [|exact Hc'].
    eapply t_trans; [apply t_step; exact Hxz | exact Hzy].
Qed.

Lemma filter_length_lt {A : Type} (p p' : A -> bool) l c :
  (forall y, In y l -> p' y = true -> p y = true) ->
  In c l -> p c = true -> p' c = false ->
  List.length (filter p' l) < List.length (filter p l).
Proof.
  induction l as [|a l IH]; simpl; [tauto|].
  intros Himp Hc Hp Hp'.
  assert (Hle : forall l0, (forall y, In y l0 -> p' y = true -> p y = true) ->
            List.length (filter p' l0) <= List.length (filter p l0)).
  { induction l0 as [|b l0 IH0]; simpl; [lia|]. intros H.
    destruct (p' b) eqn:E1.
    - rewrite (H b (or_introl eq_refl) E1). simpl.
      specialize (IH0 (fun y Hy => H y (or_intror Hy))). lia.
    - destruct (p b); simpl; specialize (IH0 (fun y Hy => H y (or_intror Hy))); lia. }
  destruct Hc as [<-|Hc].
  - rewrite Hp, Hp'. simpl.
    specialize (Hle l (fun y Hy => Himp y (or_intror Hy))). lia.
  - specialize (IH (fun y Hy => Himp y (or_intror Hy)) Hc Hp Hp').
    destruct (p' a) eqn:E1.
    + rewrite (Himp a (or_introl eq_refl) E1). simpl. lia.
    + destruct (p a); simpl; lia.
Qed.

(** ** Registries built by [register] have distinct ids *)

Lemma register_nodup reg c :
  NoDup (ids reg) -> NoDup (ids (snd (register reg c))).
Proof.
  unfold register. destruct (mem (id c) (ids reg)) eqn:E; simpl; [tauto|].
  intros H. apply mem_false in E. unfold ids in *. rewrite map_app. simpl.
  apply NoDup_app; [exact H | constructor; [tauto | constructor] |].
  intros a Ha [<-|[]]. contradiction.
Qed.

Lemma register_all_nodup cs : forall reg,
  NoDup (ids reg) -> NoDup (ids (register_all reg cs)).
Proof.
  induction cs as [|c cs IH]; simpl; auto using register_nodup.
Qed.

Lemma registry_of_nodup cs : NoDup (ids (registry_of cs)).
Proof. apply register_all_nodup. constructor. Qed.

(** ** The topological sort *)

Section Kahn.
Variable reg : Registry.
Hypothesis ids_unique : NoDup (ids reg).

(** Invariant of the emitted prefix; dependencies on unregistered ids
    are left to [find_unknown]. *)
Definition kahn_inv (done : list ComponentId) : Prop :=
  NoDup done /\
  (forall x, In x done -> In x (ids reg)) /\
  (forall pre x suf c d, done = pre ++ x :: suf -> In c reg -> id c = x ->
     In d (dependencies c) -> In d (ids reg) -> In d pre) /\
  registration_tie_break reg done.

Lemma kahn_inv_nil : kahn_inv [].
Proof.
  repeat split.
  - constructor.
  - intros x [].
  - intros pre x suf c d E. destruct pre; discriminate.
  - intros pre x suf r1 cx r2 c E. destruct pre; discriminate.
Qed.

Lemma kahn_inv_step done c :
  kahn_inv done ->
  find (fun c => is_pending done c && ready reg done c) reg = Some c ->
  kahn_inv (done ++ [id c]).
Proof.
  intros [Hnd [Hreg [Hdeps Htie]]] Hfind.
  destruct (find_split _ _ _ Hfind) as [l1 [l2 [Esplit [Hc Hl1]]]].
  apply andb_prop in Hc as [Hpc Hrc].
  unfold is_pending in Hpc. apply negb_true_iff, mem_false in Hpc.
  assert (Hcin : In c reg) by (rewrite Esplit; apply in_or_app; right; left; reflexivity).
  repeat split.
  - apply NoDup_app; [exact Hnd | constructor; [tauto | constructor] |].
    intros a Ha [<-|[]]. contradiction.
  - intros x Hx. apply in_app_or in Hx as [Hx|[<-|[]]]; auto.
    apply in_map. exact Hcin.
  - intros pre x suf c' d E Hc' Eid Hd Hdreg.
    destruct (snoc_split _ _ _ _ _ (eq_sym E)) as [[-> [-> ->]] | [suf' [-> E']]].
    + assert (c' = c) by (apply (nodup_map_inj id reg); auto). subst c'.
      unfold ready in Hrc. rewrite forallb_forall in Hrc.
      specialize (Hrc d Hd). apply orb_prop in Hrc as [H|H].
      * apply negb_true_iff in H. unfold registered in H.
        apply mem_false in H. contradiction.
      * apply mem_spec. exact H.
    + eapply Hdeps; eauto.
  - intros pre x suf r1 cx r2 c0 E Er Eid Hc0 Hnin.
    destruct (snoc_split _ _ _ _ _ (eq_sym E)) as [[-> [-> ->]] | [suf' [-> E']]].
    + assert (Hcx : In cx reg) by (rewrite Er; apply in_or_app; right; left; reflexivity).
      assert (cx = c) by (apply (nodup_map_inj id reg); auto). subst cx.
      rewrite Esplit in ids_unique.
      destruct (nodup_map_split id l1 c l2 r1 c r2 ids_unique) as [<- _];
        [congruence | reflexivity |].
      specialize (Hl1 c0 Hc0). apply andb_false_iff in Hl1 as [H|H].
      * unfold is_pending in H. apply negb_false_iff, mem_spec in H. contradiction.
      * unfold ready in H. apply forallb_false_exists in H as [d [Hd Hf]].
        exists d. split; [exact Hd|].
        apply orb_false_iff in Hf as [_ Hf]. apply mem_false. exact Hf.
    + eapply Htie; eauto.
Qed.

Lemma finish_ok done order :
  finish reg done = Ok order -> order = done /\ pending reg done = [].
Proof.
  unfold finish. destruct (pending reg done); [|discriminate].
  intros H. injection H as ->. auto.
Qed.

Lemma kahn_sound fuel : forall done order,
  kahn_inv done -> kahn fuel reg done = Ok order ->
  kahn_inv order /\ pending reg order = [].
Proof.
  induction fuel as [|fuel IH]; simpl; intros done order Hinv H.
  - apply finish_ok in H as [-> ->]. auto.
  - destruct (find _ reg) as [c|] eqn:Hf.
    + eapply IH; [|exact H]. apply kahn_inv_step; assumption.
    + apply finish_ok in H as [-> ->]. auto.
Qed.
End Kahn.

Section KahnProgress.
Variable reg : Registry.
Hypothesis ids_unique : NoDup (ids reg).

(** When no component is ready although some remain, following an
    unsatisfied dependency from a remaining component never leaves the
    remaining ones; a walk longer than their number repeats an id, which
    closes a cycle. *)
Lemma stuck_cycle done :
  find (fun c => is_pending done c && ready reg done c) reg = None ->
  pending reg done <> [] ->
  exists a, clos_trans _ (dep_edge reg) a a.
Proof.
  intros Hnone Hpend.
  set (P := fun x => In x (ids reg) /\ ~ In x done).
  set (L := filter (fun x => negb (mem x done)) (ids reg)).
  assert (HL : forall x, P x <-> In x L).
  { intros x. unfold P, L. rewrite filter_In, negb_true_iff, mem_false. tauto. }
  assert (Hsucc : forall x, P x -> exists y, dep_edge reg x y /\ P y).
  { intros x [Hx Hnx]. apply in_map_iff in Hx as [c [<- Hc]].
    pose proof (find_none _ _ Hnone c Hc) as H. simpl in H.
    apply andb_false_iff in H as [H|H].
    - unfold is_pending in H. apply negb_false_iff, mem_spec in H. contradiction.
    - apply forallb_false_exists in H as [d [Hd Hf]].
      apply orb_false_iff in Hf as [Hr Hm].
      apply negb_false_iff in Hr. apply mem_false in Hm.
      exists d. split; [exists c; auto|]. split; [apply mem_spec; exact Hr | exact Hm]. }
  assert (Hwalk : forall k x, P x ->
            exists w, List.length w = k /\ chain (dep_edge reg) x w /\ Forall P w).
  { induction k as [|k IH]; intros x Hx.
    - exists []. simpl. auto.
    - destruct (Hsucc x Hx) as [y [Hxy Hy]].
      destruct (IH y Hy) as [w [Hlen [Hch Hall]]].
      exists (y :: w). simpl. auto. }
  destruct (pending reg done) as [|c0 ps] eqn:Ep; [congruence|].
  assert (Hc0 : In c0 (pending reg done)) by (rewrite Ep; left; reflexivity).
  unfold pending in Hc0. apply filter_In in Hc0 as [Hc0 Hpc0].
  unfold is_pending in Hpc0. apply negb_true_iff, mem_false in Hpc0.
  assert (Hx0 : P (id c0)) by (split; [apply in_map; exact Hc0 | exact Hpc0]).
  destruct (Hwalk (List.length L) (id c0) Hx0) as [w [Hlen [Hch Hall]]].
  assert (Hdup : ~ NoDup (id c0 :: w)).
  { intros Hnd. apply NoDup_incl_length with (l' := L) in Hnd.
    - simpl in Hnd. lia.
    - intros x [<-|Hx]; [apply HL; exact Hx0|].
      apply HL. rewrite Forall_forall in Hall. auto. }
  apply (not_NoDup string_decidable) in Hdup as [a [l1 [l2 [l3 E]]]].
  exists a. destruct l1 as [|b l1]; simpl in E; injection E as E1 E2; subst.
  - apply (chain_app_cons _ _ _ _ _ Hch).
  - apply chain_app_cons in Hch as [_ Hch].
    apply (chain_app_cons _ _ _ _ _ Hch).
Qed.

Lemma kahn_complete (Hacyc : acyclic reg) fuel : forall done,
  kahn_inv reg done -> List.length (pending reg done) <= fuel ->
  exists order, kahn fuel reg done = Ok order.
Proof.
  induction fuel as [|fuel IH]; simpl; intros done Hinv Hlen.
  - unfold finish. destruct (pending reg done); [eauto | simpl in Hlen; lia].
  - destruct (find _ reg) as [c|] eqn:Hf.
    + apply IH; [apply kahn_inv_step; assumption|].
      apply find_some in Hf as [Hc Hp]. apply andb_prop in Hp as [Hp _].
      assert (List.length (pending reg (done ++ [id c])) < List.length (pending reg done));
        [|lia].
      apply (filter_length_lt _ _ _ c); [| exact Hc | exact Hp |].
      * intros y _. unfold is_pending. rewrite !negb_true_iff, !mem_false.
        intros H Hy. apply H, in_or_app. left. exact Hy.
      * unfold is_pending. apply negb_false_iff, mem_spec, in_or_app. right. left. reflexivity.
    + unfold finish. destruct (pending reg done) as [|p ps] eqn:Ep; [eauto|].
      exfalso. destruct (stuck_cycle done Hf) as [a Ha]; [rewrite Ep; discriminate|].
      exact (Hacyc a Ha).
Qed.

(** An ordering with the invariant that covers the registry rules out
    cycles. *)
Lemma kahn_inv_acyclic order :
  kahn_inv reg order -> pending reg order = [] -> acyclic reg.
Proof.
  intros [Hnd [Hreg [Hdeps _]]] Hp a Hcyc.
  assert (Hall : forall c, In c reg -> In (id c) order).
  { intros c Hc. destruct (in_dec string_dec (id c) order) as [H|H]; [exact H|].
    exfalso. assert (In c (pending reg order)).
    { apply filter_In. split; [exact Hc|]. unfold is_pending.
      apply negb_true_iff, mem_false. exact H. }
    rewrite Hp in H0. exact H0. }
  assert (Hsrc : forall x y, dep_edge reg x y -> In x (ids reg)).
  { intros x y [c [Hc [<- _]]]. apply in_map. exact Hc. }
  assert (Hbefore : forall x y, clos_trans_1n _ (dep_edge reg) x y ->
            In y (ids reg) -> forall pre suf, order = pre ++ x :: suf -> In y pre).
  { induction 1 as [x y Hxy | x z y Hxz Hzy IH]; intros Hy pre suf E;
      destruct Hxz as [c [Hc [Ec Hd]]] || destruct Hxy as [c [Hc [Ec Hd]]].
    - eapply Hdeps; eauto.
    - assert (Hz : In z (ids reg)).
      { inversion Hzy; eapply Hsrc; eassumption. }
      assert (Hzpre : In z pre) by (eapply Hdeps; eauto).
      apply in_split in Hzpre as [p1 [p2 ->]].
      apply in_or_app. left. apply (IH Hy p1 (p2 ++ x :: suf)).
      rewrite E, <- app_assoc. reflexivity. }
  apply clos_trans_t1n in Hcyc.
  assert (Ha : In a (ids reg)).
  { inversion Hcyc; eapply Hsrc; eassumption. }
  pose proof Ha as Ha'. apply in_map_iff in Ha' as [c [<- Hc]].
  apply Hall, in_split in Hc as [pre [suf E]].
  pose proof (Hbefore _ _ Hcyc Ha pre suf E) as Hin.
  rewrite E in Hnd. apply NoDup_remove_2 in Hnd. apply Hnd, in_or_app. left. exact Hin.
Qed.
End KahnProgress.

Lemma find_unknown_none all reg :
  (forall c d, In c reg -> In d (dependencies c) -> In d (ids all)) ->
  find_unknown all reg = None.
Proof.
  induction reg as [|c reg IH]; simpl; intros H; [reflexivity|].
  destruct (find _ (dependencies c)) as [d|] eqn:Hf.
  - apply find_some in Hf as [Hd Hr]. apply negb_true_iff in Hr.
    unfold registered in Hr. apply mem_false in Hr.
    exfalso. apply Hr. exact (H c d (or_introl eq_refl) Hd).
  - apply IH. intros c' d Hc'. apply H. right. exact Hc'.
Qed.

Lemma find_unknown_none_inv all reg :
  find_unknown all reg = None ->
  forall c d, In c reg -> In d (dependencies c) -> In d (ids all).
Proof.
  induction reg as [|c reg IH]; simpl; intros H c' d Hc' Hd; [contradiction|].
  destruct (find _ (dependencies c)) as [d'|] eqn:Hf; [discriminate|].
  destruct Hc' as [<-|Hc'].
  - pose proof (find_none _ _ Hf d Hd) as Hr. simpl in Hr.
    apply negb_false_iff in Hr. apply mem_spec. exact Hr.
  - eapply IH; eauto.
Qed.

Lemma pending_nil_in reg order c :
  pending reg order = [] -> In c reg -> In (id c) order.
Proof.
  intros Hp Hc. destruct (in_dec string_dec (id c) order) as [H|H]; [exact H|].
  exfalso. assert (Hin : In c (pending reg order)).
  { apply filter_In. split; [exact Hc|]. unfold is_pending.
    apply negb_true_iff, mem_false. exact H. }
  rewrite Hp in Hin. exact Hin.
Qed.

Lemma pending_length_le reg done : List.length (pending reg done) <= List.length reg.
Proof.
  unfold pending. induction reg as [|c reg IH]; simpl; [lia|].
  destruct (is_pending done c); simpl; lia.
Qed.

Lemma kahn_err fuel : forall reg done e,
  kahn fuel reg done = Err e -> exists ps, e = Component (CyclicDependency ps).
Proof.
  assert (Hf : forall reg done e, finish reg done = Err e ->
            exists ps, e = Component (CyclicDependency ps)).
  { intros reg done e. unfold finish. destruct (pending reg done); [discriminate|].
    intros H. injection H as <-. eauto. }
  induction fuel as [|fuel IH]; simpl; intros reg done e H; [eauto|].
  destruct (find _ reg); eauto.
Qed.

Lemma list_diverge (l1 l2 : list ComponentId) :
  List.length l1 = List.length l2 ->
  l1 = l2 \/ exists p x y s1 s2, x <> y /\ l1 = p ++ x :: s1 /\ l2 = p ++ y :: s2.
Proof.
  revert l2. induction l1 as [|a l1 IH]; intros [|b l2] Hlen; simpl in Hlen;
    try discriminate; auto.
  destruct (string_dec a b) as [<-|Hab].
  - destruct (IH l2) as [<-|[p [x [y [s1 [s2 [Hxy [-> ->]]]]]]]]; [lia| auto |].
    right. exists (a :: p), x, y, s1, s2. auto.
  - right. exists [], a, b, l1, l2. auto.
Qed.

(** Two orderings that both respect the dependencies and the tie-break
    cannot first differ where one emits [x] and the other a component
    registered before [x]. *)
Lemma tie_break_first reg o1 o2 p x y s1 s2 r1 cx r2 cy :
  NoDup o2 -> deps_before reg o2 -> registration_tie_break reg o1 ->
  o1 = p ++ x :: s1 -> o2 = p ++ y :: s2 ->
  reg = r1 ++ cx :: r2 -> id cx = x -> In cy r1 -> id cy = y -> False.
Proof.
  intros Hnd2 Hdeps2 Htie1 E1 E2 Er Ex Hcy Ey.
  assert (Hyp : ~ In y p).
  { rewrite E2 in Hnd2. apply NoDup_remove_2 in Hnd2. intros H. apply Hnd2, in_or_app. auto. }
  destruct (Htie1 p x s1 r1 cx r2 cy E1 Er Ex Hcy) as [d [Hd Hdp]]; [congruence|].
  apply Hdp. eapply Hdeps2; [exact E2 | | exact Ey | exact Hd].
  rewrite Er. apply in_or_app. left. exact Hcy.
Qed.

Lemma boot_order_unique reg o1 o2 :
  NoDup (ids reg) ->
  Permutation o1 (ids reg) -> Permutation o2 (ids reg) ->
  deps_before reg o1 -> deps_before reg o2 ->
  registration_tie_break reg o1 -> registration_tie_break reg o2 -> o1 = o2.
Proof.
  intros Hnd P1 P2 D1 D2 T1 T2.
  assert (N1 : NoDup o1) by (eapply Permutation_NoDup; [symmetry; exact P1 | exact Hnd]).
  assert (N2 : NoDup o2) by (eapply Permutation_NoDup; [symmetry; exact P2 | exact Hnd]).
  destruct (list_diverge o1 o2) as [E|[p [x [y [s1 [s2 [Hxy [E1 E2]]]]]]]];
    [rewrite (Permutation_length P1), (Permutation_length P2); reflexivity | exact E |].
  assert (Hx : In x (ids reg)).
  { eapply Permutation_in; [exact P1|]. rewrite E1. apply in_or_app. right. left. reflexivity. }
  assert (Hy : In y (ids reg)).
  { eapply Permutation_in; [exact P2|]. rewrite E2. apply in_or_app. right. left. reflexivity. }
  apply in_map_iff in Hx as [cx [Ex Hcx]], Hy as [cy [Ey Hcy]].
  apply in_split in Hcx as [r1 [r2 Er]].
  rewrite Er in Hcy. apply in_app_or in Hcy as [Hcy|[Hcy|Hcy]].
  - exfalso. eapply (tie_break_first reg o1 o2); eauto.
  - congruence.
  - exfalso. apply in_split in Hcy as [q1 [q2 Eq]].
    eapply (tie_break_first reg o2 o1 p y x s2 s1 (r1 ++ cx :: q1) cy q2 cx); eauto.
    + rewrite Er, Eq, <- app_assoc. reflexivity.
    + apply in_or_app. right. left. reflexivity.
Qed.

(** What a successful [resolve_boot_order] guarantees. *)
Lemma resolve_ok_spec reg order :
  NoDup (ids reg) -> resolve_boot_order reg = Ok order ->
  NoDup order /\ (forall x, In x order <-> In x (ids reg)) /\
  deps_before reg order /\ registration_tie_break reg order /\
  (forall c d, In c reg -> In d (dependencies c) -> In d (ids reg)).
Proof.
  intros Hnd H. unfold resolve_boot_order in H.
  destruct (kahn _ reg []) as [o|e] eqn:Hk; [|discriminate].
  destruct (find_unknown reg reg) as [[c d]|] eqn:Hu; [discriminate|].
  injection H as <-.
  destruct (kahn_sound reg Hnd _ _ _ (kahn_inv_nil reg) Hk) as [[N [R [D T]]] P].
  pose proof (find_unknown_none_inv _ _ Hu) as Hreg.
  repeat split; auto.
  - intros Hx. apply in_map_iff in Hx as [c [<- Hc]]. eapply pending_nil_in; eauto.
  - intros pre x suf c d E Hc Ex Hd. eapply D; eauto.
Qed.

Lemma resolve_ok_acyclic reg order :
  NoDup (ids reg) -> resolve_boot_order reg = Ok order -> acyclic reg.
Proof.
  intros Hnd H. unfold resolve_boot_order in H.
  destruct (kahn _ reg []) as [o|e] eqn:Hk; [|discriminate].
  destruct (kahn_sound reg Hnd _ _ _ (kahn_inv_nil reg) Hk) as [Hinv P].
  exact (kahn_inv_acyclic reg o Hinv P).
Qed.

(** The first unknown dependency found names a component of the
    registry and one of its dependencies that is not registered. *)
Lemma find_unknown_some all reg x d :
  find_unknown all reg = Some (x, d) ->
  exists c, In c reg /\ id c = x /\ In d (dependencies c) /\ ~ In d (ids all).
Proof.
  induction reg as [|c reg IH]; simpl; intros H; [discriminate|].
  destruct (find _ (dependencies c)) as [d'|] eqn:Hf.
  - injection H as <- <-. apply find_some in Hf as [Hd Hr]. apply negb_true_iff in Hr.
    unfold registered in Hr. apply mem_false in Hr.
    exists c. repeat split; auto.
  - destruct (IH H) as [c' [Hc [Ex [Hd Hn]]]]. exists c'. auto.
Qed.

(** A one-component registry with a dependency on an unregistered id has
    no cycle. *)
Lemma single_unknown_acyclic : acyclic (registry_of [mkComponent "a" ["x"]]).
Proof.
  intros a H. apply clos_trans_t1n in H.
  assert (Hx : forall y z, dep_edge (registry_of [mkComponent "a" ["x"]]) y z -> y = "a" /\ z = "x").
  { intros y z [c [[<-|[]] [<- [<-|[]]]]]. auto. }
  assert (Hp : forall u v, clos_trans_1n _ (dep_edge (registry_of [mkComponent "a" ["x"]])) u v ->
            u = "a" /\ v = "x").
  { induction 1 as [u v Huv | u z v Huz _ [Ez _]].
    - exact (Hx _ _ Huv).
    - destruct (Hx _ _ Huz) as [_ E]. rewrite E in Ez. discriminate. }
  destruct (Hp _ _ H) as [E1 E2]. rewrite E1 in E2. discriminate.
Qed.

(** C1 (as amended).  For a registry built by [register] whose dependency
    relation is acyclic: when its declared dependencies all name registered
    components, [resolve_boot_order] succeeds with an ordering of exactly
    the registered ids in which each component follows all of its
    dependencies and ready components are taken in registration order, and
    that ordering is the only one with these properties, so it depends on
    the registration order alone; when some component declares a
    dependency on an unregistered id, [resolve_boot_order] fails with
    [Component::UnknownDependency], naming a component and one of its
    dependencies that is not registered. *)
Theorem resolve_boot_order_topological cs :
  acyclic (registry_of cs) ->
  ((forall c d, In c (registry_of cs) -> In d (dependencies c) ->
      In d (ids (registry_of cs))) ->
   exists order,
     resolve_boot_order (registry_of cs) = Ok order /\
     Permutation order (ids (registry_of cs)) /\
     deps_before (registry_of cs) order /\
     registration_tie_break (registry_of cs) order /\
     (forall order', Permutation order' (ids (registry_of cs)) ->
        deps_before (registry_of cs) order' ->
        registration_tie_break (registry_of cs) order' -> order' = order)) /\
  (forall c d, In c (registry_of cs) -> In d (dependencies c) ->
     ~ In d (ids (registry_of cs)) ->
   exists c' d',
     resolve_boot_order (registry_of cs) = Err (Component (UnknownDependency (id c') d')) /\
     In c' (registry_of cs) /\ In d' (dependencies c') /\ ~ In d' (ids (registry_of cs))).
Proof.
  intros Hacyc.
  pose proof (registry_of_nodup cs) as Hnd.
  set (reg := registry_of cs) in *.
  destruct (kahn_complete reg Hnd Hacyc (List.length reg) [] (kahn_inv_nil reg)
              (pending_length_le reg [])) as [order Hk].
  split.
  - intros Hknown.
    assert (Hres : resolve_boot_order reg = Ok order).
    { unfold resolve_boot_order. rewrite Hk, find_unknown_none by exact Hknown. reflexivity. }
    destruct (resolve_ok_spec reg order Hnd Hres) as [N [Hin [D [T _]]]].
    assert (P : Permutation order (ids reg)) by (apply NoDup_Permutation; auto).
    exists order. repeat split; auto.
    intros order' P' D' T'. eapply boot_order_unique; eauto.
  - intros c d Hc Hd Hn.
    destruct (find_unknown reg reg) as [[x d']|] eqn:Hu.
    + destruct (find_unknown_some _ _ _ _ Hu) as [c' [Hc' [Ex [Hd' Hn']]]].
      exists c', d'. unfold resolve_boot_order. rewrite Hk, Hu, Ex. auto.
    + exfalso. apply Hn. exact (find_unknown_none_inv reg reg Hu c d Hc Hd).
Qed.

(** C1 does not hold as stated: a dependency on an unregistered id, with no
    cycle, makes [resolve_boot_order] fail with
    [Component::UnknownDependency]. *)
Lemma resolve_boot_order_unknown_dependency :
  acyclic (registry_of [mkComponent "a" ["x"]]) /\
  resolve_boot_order (registry_of [mkComponent "a" ["x"]])
  = Err (Component (UnknownDependency "a" "x")).
Proof.
  split; [exact single_unknown_acyclic | reflexivity].
Qed.

(** C2.  For a registry built by [register] whose dependency relation has
    a cycle, [resolve_boot_order] fails with [Component::CyclicDependency];
    [Components::boot] then fails with it too, no [init] hook is called and
    every component is still [Registered]. *)
Theorem resolve_boot_order_cyclic cs init a :
  clos_trans _ (dep_edge (registry_of cs)) a a ->
  (exists ps, resolve_boot_order (registry_of cs) = Err (Component (CyclicDependency ps))) /\
  (exists ps, fst (components_boot init (registry_of cs))
              = Err (Component (CyclicDependency ps))) /\
  calls (snd (components_boot init (registry_of cs))) = [] /\
  transitions (snd (components_boot init (registry_of cs))) = [] /\
  (forall x, states (snd (components_boot init (registry_of cs))) x = Registered).
Proof.
  intros Hcyc.
  pose proof (registry_of_nodup cs) as Hnd.
  set (reg := registry_of cs) in *.
  assert (Hres : exists ps, resolve_boot_order reg = Err (Component (CyclicDependency ps))).
  { destruct (resolve_boot_order reg) as [order|e] eqn:Hr.
    - exfalso. exact (resolve_ok_acyclic reg order Hnd Hr a Hcyc).
    - unfold resolve_boot_order in Hr.
      destruct (kahn _ reg []) as [o|e'] eqn:Hk.
      + exfalso. destruct (kahn_sound reg Hnd _ _ _ (kahn_inv_nil reg) Hk) as [Hinv P].
        exact (kahn_inv_acyclic reg o Hinv P a Hcyc).
      + injection Hr as <-. destruct (kahn_err _ _ _ _ Hk) as [ps ->]. eauto. }
  destruct Hres as [ps Hps].
  unfold components_boot. rewrite Hps. simpl. repeat split; eauto.
Qed.

(** ** Boot and shutdown loops *)

Lemma boot_components_spec init : forall order app,
  NoDup order ->
  exists pre,
    (forall x, In x pre -> init x = true) /\
    boot_order (snd (boot_components init order app)) = boot_order app ++ pre /\
    ((pre = order /\ fst (boot_components init order app) = Ok tt /\
      calls (snd (boot_components init order app)) = calls app ++ map CallInit pre /\
      (forall y, states (snd (boot_components init order app)) y =
         if in_dec string_dec y pre then Ready else states app y))
     \/
     (exists c suf, order = pre ++ c :: suf /\ init c = false /\
      fst (boot_components init order app) = Err (Component (InitFailed c)) /\
      calls (snd (boot_components init order app)) = calls app ++ map CallInit (pre ++ [c]) /\
      (forall y, states (snd (boot_components init order app)) y =
         if in_dec string_dec y pre then Ready
         else if string_dec y c then Failed else states app y))).
Proof.
  induction order as [|x rest IH]; intros app Hnd.
  - exists []. simpl. split; [tauto|]. split; [rewrite app_nil_r; reflexivity|].
    left. repeat split. rewrite app_nil_r. reflexivity.
  - inversion Hnd as [|? ? Hx Hnd']; subst. simpl.
    destruct (init x) eqn:Ei.
    + set (app' := record_booted _ x).
      destruct (IH app' Hnd') as [pre [Hpre [Hbo Hcase]]].
      exists (x :: pre). split; [intros y [<-|Hy]; auto|].
      split; [rewrite Hbo; simpl; rewrite <- app_assoc; reflexivity|].
      destruct Hcase as [[-> [Hr [Hc Hs]]] | [c [suf [-> [Hic [Hr [Hc Hs]]]]]]].
      * left. repeat split; auto.
        -- rewrite Hc. simpl. rewrite <- app_assoc. reflexivity.
        -- intros y. rewrite Hs. unfold app'. cbn [states record_booted transition call].
           unfold set_state.
           destruct (in_dec string_dec y rest) as [H|H];
             destruct (in_dec string_dec y (x :: rest)) as [H'|H']; simpl in H';
             destruct (String.eqb_spec y x); subst; first [reflexivity | exfalso; intuition congruence].
      * right. exists c, suf. repeat split; auto.
        -- rewrite Hc. simpl. rewrite <- app_assoc. reflexivity.
        -- intros y. rewrite Hs. unfold app'. cbn [states record_booted transition call].
           unfold set_state.
           assert (Hcx : c <> x).
           { intros ->. apply Hx, in_or_app. right. left. reflexivity. }
           destruct (in_dec string_dec y pre) as [H|H];
             destruct (in_dec string_dec y (x :: pre)) as [H'|H']; simpl in H';
             destruct (String.eqb_spec y x); destruct (string_dec y c); subst; first [reflexivity | exfalso; intuition congruence].
    + exists []. split; [intros y []|]. split; [simpl; rewrite app_nil_r; reflexivity|].
      right. exists x, rest. repeat split; auto.
      intros y. simpl. unfold set_state.
      destruct (String.eqb_spec y x); destruct (string_dec y x); congruence.
Qed.

Lemma shutdown_components_spec hook : forall xs app errs,
  calls (snd (shutdown_components hook xs app errs)) = calls app ++ map CallShutdown xs /\
  fst (shutdown_components hook xs app errs) = errs ++ filter (fun x => negb (hook x)) xs.
Proof.
  induction xs as [|x xs IH]; intros app errs; simpl.
  - rewrite !app_nil_r. auto.
  - destruct (hook x); simpl;
      match goal with |- context [shutdown_components hook xs ?a ?e] =>
        destruct (IH a e) as [Hc He] end;
      rewrite Hc, He; simpl; rewrite <- ?app_assoc; auto.
Qed.

Lemma first_failure (p : ComponentId -> bool) pre c suf pre' c' suf' :
  pre ++ c :: suf = pre' ++ c' :: suf' ->
  (forall x, In x pre -> p x = true) -> p c = false ->
  (forall x, In x pre' -> p x = true) -> p c' = false ->
  pre = pre' /\ c = c'.
Proof.
  revert pre'. induction pre as [|y pre IH]; intros [|y' pre'] E H1 Hc H2 Hc';
    simpl in E; injection E as E1 E2.
  - subst. auto.
  - subst y'. rewrite (H2 c (or_introl eq_refl)) in Hc. discriminate.
  - subst y. rewrite (H1 c' (or_introl eq_refl)) in Hc'. discriminate.
  - subst y'. destruct (IH pre' E2) as [-> ->]; auto.
    + intros x Hx. apply H1. right. exact Hx.
    + intros x Hx. apply H2. right. exact Hx.
Qed.

(** A prefix of an ordering that respects the dependencies is closed under
    the dependency relation. *)
Lemma prefix_closed reg order pre rest :
  deps_before reg order -> order = pre ++ rest ->
  forall y z, clos_trans_1n _ (dep_edge reg) y z -> In y pre -> In z pre.
Proof.
  intros D E. induction 1 as [y z Hyz | y w z Hyw _ IH]; intros Hy.
  - destruct Hyz as [c [Hc [Ec Hd]]].
    apply in_split in Hy as [p1 [p2 Ep]]. subst pre.
    assert (In z p1).
    { eapply D; [|exact Hc|exact Ec|exact Hd]. rewrite E, <- app_assoc. reflexivity. }
    apply in_or_app. left. assumption.
  - apply IH. destruct Hyw as [c [Hc [Ec Hd]]].
    apply in_split in Hy as [p1 [p2 Ep]]. subst pre.
    assert (In w p1).
    { eapply D; [|exact Hc|exact Ec|exact Hd]. rewrite E, <- app_assoc. reflexivity. }
    apply in_or_app. left. assumption.
Qed.

Lemma dependents_not_before reg order pre c suf x :
  NoDup order -> deps_before reg order -> order = pre ++ c :: suf ->
  clos_trans _ (dep_edge reg) x c -> ~ In x pre /\ x <> c.
Proof.
  intros Hnd D E Hxc.
  assert (Hcpre : ~ In c pre).
  { rewrite E in Hnd. apply NoDup_remove_2 in Hnd. intros H. apply Hnd, in_or_app. auto. }
  apply clos_trans_t1n in Hxc.
  split.
  - intros Hx. apply Hcpre. eapply (prefix_closed reg order pre (c :: suf)); eauto.
  - intros ->. apply Hcpre.
    assert (Hfirst : forall u v, clos_trans_1n _ (dep_edge reg) u v ->
              exists w, dep_edge reg u w /\ (w = v \/ clos_trans_1n _ (dep_edge reg) w v)).
    { intros u v []; eauto. }
    destruct (Hfirst _ _ Hxc) as [w [[c0 [Hc0 [Ec0 Hd]]] Hwc]].
    assert (Hw : In w pre) by (eapply D; eauto).
    destruct Hwc as [<-|Hwc]; [exact Hw|].
    eapply (prefix_closed reg order pre (c :: suf)); eauto.
Qed.

(** C3.  When the [init] hook of [c] fails during boot (all components
    before it in the boot order having initialized), [c] ends [Failed],
    boot reports [Component::InitFailed c], the components initialized
    before stay [Ready], every component that depends on [c], directly or
    transitively, and every later component stays [Registered], and no
    shutdown hook runs: nothing is rolled back. *)
Theorem boot_init_failure cs init order pre c suf res app :
  resolve_boot_order (registry_of cs) = Ok order ->
  order = pre ++ c :: suf ->
  (forall x, In x pre -> init x = true) -> init c = false ->
  components_boot init (registry_of cs) = (res, app) ->
  res = Err (Component (InitFailed c)) /\
  states app c = Failed /\
  (forall x, In x pre -> states app x = Ready) /\
  (forall x, clos_trans _ (dep_edge (registry_of cs)) x c -> states app x = Registered) /\
  (forall x, In x suf -> states app x = Registered) /\
  boot_order app = pre /\
  calls app = map CallInit (pre ++ [c]).
Proof.
  intros Hres Eo Hpre Hc Hboot.
  pose proof (registry_of_nodup cs) as Hnd.
  set (reg := registry_of cs) in *.
  destruct (resolve_ok_spec reg order Hnd Hres) as [N [_ [D _]]].
  unfold components_boot in Hboot. rewrite Hres in Hboot.
  destruct (boot_components_spec init order (new_application reg) N)
    as [pre' [Hpre' [Hbo Hcase]]].
  rewrite Hboot in Hbo, Hcase. simpl in Hbo, Hcase.
  destruct Hcase as [[-> _] | [c' [suf' [Eo' [Hc' [Hr [Hcalls Hs]]]]]]].
  - exfalso. rewrite (Hpre' c) in Hc; [discriminate|].
    rewrite Eo. apply in_or_app. right. left. reflexivity.
  - destruct (first_failure init pre c suf pre' c' suf') as [<- <-];
      [congruence | assumption.. |].
    assert (Hcpre : ~ In c pre).
    { rewrite Eo in N. apply NoDup_remove_2 in N. intros H. apply N, in_or_app. auto. }
    assert (Hsuf : forall x, In x suf -> ~ In x pre /\ x <> c).
    { intros x Hx. rewrite Eo in N. split.
      - intros Hxp. apply NoDup_remove_1 in N.
        apply in_split in Hxp as [p1 [p2 ->]]. rewrite <- app_assoc in N.
        simpl in N. apply NoDup_remove_2 in N. apply N.
        apply in_or_app. right. apply in_or_app. right. exact Hx.
      - intros ->. apply NoDup_remove_2 in N. apply N, in_or_app. right. exact Hx. }
    assert (Hst : forall x, ~ In x pre -> x <> c -> states app x = Registered).
    { intros x H1 H2. rewrite Hs. destruct (in_dec string_dec x pre); [contradiction|].
      destruct (string_dec x c); [contradiction|]. reflexivity. }
    repeat split; auto.
    + rewrite Hs. destruct (in_dec string_dec c pre); [contradiction|].
      destruct (string_dec c c); [reflexivity | contradiction].
    + intros x Hx. rewrite Hs. destruct (in_dec string_dec x pre); [reflexivity | contradiction].
    + intros x Hx. destruct (dependents_not_before reg order pre c suf x N D Eo Hx).
      apply Hst; assumption.
    + intros x Hx. destruct (Hsuf x Hx). apply Hst; assumption.
Qed.

(** C8.  [shutdown] calls the [shutdown] hook of every component of the
    recorded boot order, in exactly the reverse order, whatever the
    outcome of each hook; the failed ones are reported together, in the
    order they were attempted, once all hooks have run. *)
Theorem shutdown_reverse_best_effort hook app :
  calls (snd (components_shutdown hook app))
    = calls app ++ map CallShutdown (rev (boot_order app)) /\
  fst (components_shutdown hook app)
    = match filter (fun x => negb (hook x)) (rev (boot_order app)) with
      | [] => Ok tt
      | errs => Err (Component (ShutdownFailed errs))
      end.
Proof.
  unfold components_shutdown.
  destruct (shutdown_components_spec hook (rev (boot_order app)) app []) as [Hc He].
  destruct (shutdown_components hook (rev (boot_order app)) app []) as [errs app'].
  simpl in *. rewrite Hc, He. split; [reflexivity|].
  destruct (filter _ _); reflexivity.
Qed.

(** ** The lifecycle log *)

Lemma apply_log_snoc st tr t :
  apply_log st (tr ++ [t]) = set_state (apply_log st tr) (t_id t) (t_to t).
Proof. revert st. induction tr as [|t0 tr IH]; intros st; simpl; auto. Qed.

Lemma replay_snoc st tr t :
  replay st tr -> apply_log st tr (t_id t) = t_from t ->
  valid_transition (t_from t) (t_to t) = true -> replay st (tr ++ [t]).
Proof.
  revert st. induction tr as [|t0 tr IH]; intros st; simpl.
  - intros _ H1 H2. auto.
  - intros [H1 [H2 H3]] H4 H5. auto.
Qed.

Lemma transition_consistent app x s :
  log_consistent app -> valid_transition (states app x) s = true ->
  log_consistent (transition app x s).
Proof.
  intros [Hr Hs] Hv. unfold log_consistent, transition. simpl. split.
  - apply replay_snoc; simpl; auto.
  - intros y. rewrite apply_log_snoc. simpl. unfold set_state.
    destruct (String.eqb y x); auto.
Qed.

Lemma ready_after_deps_snoc reg tr t :
  ready_after_deps reg tr ->
  (t_to t = Ready -> forall c d, In c reg -> id c = t_id t -> In d (dependencies c) ->
     exists t', In t' tr /\ t_id t' = d /\ t_to t' = Ready) ->
  ready_after_deps reg (tr ++ [t]).
Proof.
  intros H Hnew pre t0 suf c d E Ht0 Hc Ec Hd.
  destruct (snoc_split _ _ _ _ _ (eq_sym E)) as [[-> [-> ->]] | [suf' [-> E']]].
  - eapply Hnew; eauto.
  - eapply H; eauto.
Qed.

Lemma apply_log_ready st tr y :
  (forall z, st z <> Ready) -> apply_log st tr y = Ready ->
  exists pre t suf, tr = pre ++ t :: suf /\ t_id t = y /\ t_to t = Ready.
Proof.
  intros Hst. induction tr as [|t tr IH] using rev_ind; simpl.
  - intros H. exfalso. exact (Hst y H).
  - rewrite apply_log_snoc. unfold set_state.
    destruct (String.eqb_spec y (t_id t)) as [->|Hne]; intros H.
    + exists tr, t, []. auto.
    + destruct (IH H) as [pre [t' [suf [-> [E1 E2]]]]].
      exists pre, t', (suf ++ [t]). rewrite <- app_assoc. auto.
Qed.

Section BootLog.
Variable reg : Registry.
Variable init : ComponentId -> bool.

Lemma boot_components_log : forall rest app,
  NoDup (boot_order app ++ rest) -> deps_before reg (boot_order app ++ rest) ->
  log_consistent app -> ready_after_deps reg (transitions app) ->
  (forall y, In y (boot_order app) ->
     exists t, In t (transitions app) /\ t_id t = y /\ t_to t = Ready) ->
  (forall y, In y (boot_order app) -> states app y = Ready) ->
  (forall y, In y rest -> states app y = Registered) ->
  log_consistent (snd (boot_components init rest app)) /\
  ready_after_deps reg (transitions (snd (boot_components init rest app))) /\
  NoDup (boot_order (snd (boot_components init rest app))) /\
  (forall y, In y (boot_order (snd (boot_components init rest app))) ->
     states (snd (boot_components init rest app)) y = Ready).
Proof.
  induction rest as [|x rest IH]; intros app Hnd D Hc Hrd Htr Hready Hreg; simpl.
  - rewrite app_nil_r in Hnd. auto.
  - assert (Hxbo : ~ In x (boot_order app)).
    { intros H. apply NoDup_remove_2 in Hnd. apply Hnd, in_or_app. left. exact H. }
    assert (Hxr : states app x = Registered) by (apply Hreg; left; reflexivity).
    set (app1 := call (transition app x Initializing) (CallInit x)).
    assert (Hc1 : log_consistent app1).
    { apply transition_consistent; [exact Hc | rewrite Hxr; reflexivity]. }
    assert (Hrd1 : ready_after_deps reg (transitions app1)).
    { apply ready_after_deps_snoc; [exact Hrd | simpl; discriminate]. }
    assert (Hs1 : forall y, states app1 y = if String.eqb y x then Initializing else states app y)
      by reflexivity.
    destruct (init x).
    + set (app2 := record_booted (transition app1 x Ready) x).
      assert (Hs2 : forall y, states app2 y = if String.eqb y x then Ready else states app y).
      { intros y. simpl. unfold set_state. destruct (String.eqb y x); reflexivity. }
      assert (Htr2 : transitions app2 = transitions app ++
                [mkTransition x (states app x) Initializing; mkTransition x Initializing Ready]).
      { simpl. unfold set_state. rewrite String.eqb_refl, <- app_assoc. reflexivity. }
      apply IH.
      * simpl. rewrite <- app_assoc. exact Hnd.
      * simpl. rewrite <- app_assoc. exact D.
      * apply transition_consistent; [exact Hc1|].
        rewrite Hs1, String.eqb_refl. reflexivity.
      * apply ready_after_deps_snoc; [exact Hrd1|].
        intros _ c d Hcin Ec Hd. simpl in Ec.
        assert (Hdbo : In d (boot_order app)) by (eapply D; eauto).
        destruct (Htr d Hdbo) as [t' [Ht' [E1 E2]]].
        exists t'. split; [|auto]. simpl. apply in_or_app. left. exact Ht'.
      * intros y Hy. rewrite Htr2. simpl in Hy. apply in_app_or in Hy as [Hy|[<-|[]]].
        -- destruct (Htr y Hy) as [t' [Ht' Et']]. exists t'.
           split; [apply in_or_app; left; exact Ht' | exact Et'].
        -- eexists. split; [apply in_or_app; right; right; left; reflexivity|].
           simpl. auto.
      * intros y Hy. rewrite Hs2. simpl in Hy. apply in_app_or in Hy as [Hy|[<-|[]]].
        -- destruct (String.eqb_spec y x) as [->|_]; [contradiction | auto].
        -- rewrite String.eqb_refl. reflexivity.
      * intros y Hy. rewrite Hs2. destruct (String.eqb_spec y x) as [->|_].
        -- exfalso. apply NoDup_remove_2 in Hnd. apply Hnd, in_or_app. right. exact Hy.
        -- apply Hreg. right. exact Hy.
    + split; [|split; [|split]].
      * apply transition_consistent; [exact Hc1|].
        rewrite Hs1, String.eqb_refl. reflexivity.
      * apply ready_after_deps_snoc; [exact Hrd1 | simpl; discriminate].
      * simpl. eapply NoDup_app_remove_r. exact Hnd.
      * intros y Hy. simpl in Hy |- *. unfold set_state.
        destruct (String.eqb_spec y x) as [->|_]; [contradiction|].
        destruct (String.eqb_spec y x) as [->|_]; [contradiction|]. auto.
Qed.

Lemma shutdown_components_log hook : forall xs app errs,
  NoDup xs -> log_consistent app -> ready_after_deps reg (transitions app) ->
  (forall y, In y xs -> states app y = Ready) ->
  log_consistent (snd (shutdown_components hook xs app errs)) /\
  ready_after_deps reg (transitions (snd (shutdown_components hook xs app errs))).
Proof.
  induction xs as [|x xs IH]; intros app errs Hnd Hc Hrd Hready; simpl; [auto|].
  inversion Hnd as [|? ? Hx Hnd']; subst.
  set (app1 := call (transition app x ShuttingDown) (CallShutdown x)).
  assert (Hc1 : log_consistent app1).
  { apply transition_consistent; [exact Hc|]. rewrite (Hready x (or_introl eq_refl)). reflexivity. }
  assert (Hrd1 : ready_after_deps reg (transitions app1)).
  { apply ready_after_deps_snoc; [exact Hrd | simpl; discriminate]. }
  assert (Hx1 : states app1 x = ShuttingDown) by (simpl; unfold set_state; rewrite String.eqb_refl; reflexivity).
  assert (Hrest : forall s y, In y xs -> states (transition app1 x s) y = Ready).
  { intros s y Hy. simpl. unfold set_state.
    destruct (String.eqb_spec y x) as [->|_]; [contradiction|].
    destruct (String.eqb_spec y x) as [->|_]; [contradiction|].
    apply Hready. right. exact Hy. }
  destruct (hook x); apply IH; auto;
    solve [ apply transition_consistent; [exact Hc1 | rewrite Hx1; reflexivity]
          | apply ready_after_deps_snoc; [exact Hrd1 | simpl; discriminate] ].
Qed.
End BootLog.

Lemma new_application_log reg :
  log_consistent (new_application reg) /\ ready_after_deps reg (transitions (new_application reg)).
Proof.
  split.
  - split; simpl; auto.
  - intros pre t suf c d E. destruct pre; discriminate.
Qed.

Lemma components_shutdown_log reg hook app :
  NoDup (boot_order app) -> log_consistent app -> ready_after_deps reg (transitions app) ->
  (forall y, In y (boot_order app) -> states app y = Ready) ->
  log_consistent (snd (components_shutdown hook app)) /\
  ready_after_deps reg (transitions (snd (components_shutdown hook app))).
Proof.
  intros Hnd Hc Hrd Hready. unfold components_shutdown.
  pose proof (shutdown_components_log reg hook (rev (boot_order app)) app []) as H.
  destruct (shutdown_components hook (rev (boot_order app)) app []) as [errs app'].
  simpl in *. apply H; auto using NoDup_rev.
  intros y Hy. apply Hready. apply in_rev. exact Hy.
Qed.

(** C9.  Over a whole run (boot, then shutdown of what booted), the log of
    state transitions follows the state machine from the all-[Registered]
    start, one step at a time, and the state of every component is the one
    the log leads to; in every state along the run a [Ready] component has
    each declared dependency reach [Ready] earlier; [Stopped] and [Failed]
    have no way out, and [Failed] is entered only from [Initializing] or
    [ShuttingDown]. *)
Theorem lifecycle_state_machine cs init hook :
  replay all_registered (transitions (lifecycle init hook (registry_of cs))) /\
  (forall y, states (lifecycle init hook (registry_of cs)) y
             = apply_log all_registered (transitions (lifecycle init hook (registry_of cs))) y) /\
  (forall log_pre log_post c d,
     transitions (lifecycle init hook (registry_of cs)) = log_pre ++ log_post ->
     In c (registry_of cs) -> apply_log all_registered log_pre (id c) = Ready ->
     In d (dependencies c) ->
     exists t, In t log_pre /\ t_id t = d /\ t_to t = Ready) /\
  (forall s, valid_transition Stopped s = false /\ valid_transition Failed s = false) /\
  (forall s, valid_transition s Failed = true -> s = Initializing \/ s = ShuttingDown).
Proof.
  pose proof (registry_of_nodup cs) as Hnd.
  set (reg := registry_of cs) in *.
  assert (Hrun : log_consistent (lifecycle init hook reg) /\
                 ready_after_deps reg (transitions (lifecycle init hook reg))).
  { unfold lifecycle, components_boot.
    destruct (new_application_log reg) as [Hc0 Hrd0].
    destruct (resolve_boot_order reg) as [order|e] eqn:Hres.
    - destruct (resolve_ok_spec reg order Hnd Hres) as [N [_ [D _]]].
      destruct (boot_components_log reg init order (new_application reg))
        as [Hc [Hrd [Hnd' Hready]]]; auto.
      + intros y [].
      + intros y [].
      + apply components_shutdown_log; auto.
    - apply components_shutdown_log; simpl; auto; [constructor | intros y []]. }
  destruct Hrun as [[Hreplay Hstates] Hrd].
  split; [exact Hreplay|]. split; [exact Hstates|]. split; [|split].
  - intros log_pre log_post c d E Hc Hready Hd.
    assert (Hnr : forall z, all_registered z <> Ready) by (intros z; discriminate).
    destruct (apply_log_ready all_registered log_pre (id c) Hnr Hready)
      as [p [t [s [Ep [Et Etr]]]]].
    rewrite Ep, <- app_assoc in E. simpl in E.
    destruct (Hrd p t (s ++ log_post) c d E Etr Hc (eq_sym Et) Hd) as [t' [Ht' Et']].
    exists t'. split; [rewrite Ep; apply in_or_app; left; exact Ht' | exact Et'].
  - intros s. destruct s; split; reflexivity.
  - intros s. destruct s; simpl; try discriminate; auto.
Qed.

(** ** The configuration cell *)

Lemma run_ops_no_set {T : Type} (cell : GlobalConfig T) ops :
  no_set ops -> forall r, In r (fst (run_ops cell ops)) -> r = get cell.
Proof.
  induction ops as [|op ops IH]; simpl; intros Hns r Hr; [contradiction|].
  destruct op as [|v].
  - assert (Hns' : no_set ops) by (intros v Hv; apply (Hns v); right; exact Hv).
    destruct (run_ops cell ops) as [rs c] eqn:E. simpl in Hr.
    destruct Hr as [<-|Hr]; [reflexivity|].
    apply IH; [exact Hns'|]. simpl. exact Hr.
  - exfalso. apply (Hns v). left. reflexivity.
Qed.

(** C4.  After [set v], [get] returns [v], and so does every later [get]
    until the next [set]. *)
Theorem get_after_set {T : Type} (cell : GlobalConfig T) (v : T) ops :
  no_set ops ->
  get (set cell v) = Ok v /\
  (forall r, In r (fst (run_ops (set cell v) ops)) -> r = Ok v).
Proof.
  intros Hns. split; [reflexivity|].
  intros r Hr. rewrite (run_ops_no_set _ _ Hns r Hr). reflexivity.
Qed.

(** C5.  Every [get] issued before the first [set] fails with
    [Config::NotInitialized]. *)
Theorem get_before_set {T : Type} (ops : list (ConfigOp T)) :
  no_set ops ->
  forall r, In r (fst (run_ops global_config_new ops)) -> r = Err (Config NotInitialized).
Proof.
  intros Hns r Hr. rewrite (run_ops_no_set _ _ Hns r Hr). reflexivity.
Qed.

Lemma nth_error_update_nth_neq {X : Type} (f : X -> X) i j l :
  i <> j -> nth_error (update_nth f i l) j = nth_error l j.
Proof.
  revert i j. induction l as [|x l IH]; intros [|i] [|j] H; simpl;
    try reflexivity; try (exfalso; congruence).
  apply IH. congruence.
Qed.

Lemma nth_error_update_nth_eq {X : Type} (f : X -> X) i l x :
  nth_error l i = Some x -> nth_error (update_nth f i l) i = Some (f x).
Proof.
  revert i. induction l as [|y l IH]; intros [|i] H; simpl in *; try discriminate.
  - injection H as ->. reflexivity.
  - apply IH. exact H.
Qed.

Lemma nth_error_at_length {X : Type} (l r : list X) x :
  nth_error (l ++ x :: r) (List.length l) = Some x.
Proof. induction l; simpl; auto. Qed.


(** C7.  Registering a component whose id is already registered fails with
    [Component::DuplicateId] and leaves the registry as it was. *)
Theorem register_duplicate reg c :
  In (id c) (ids reg) ->
  register reg c = (Err (Component (DuplicateId (id c))), reg).
Proof.
  intros H. unfold register. apply mem_spec in H. rewrite H. reflexivity.
Qed.

(** ** The cell under concurrent access *)

Module RwCellFacts.
Import RwCell.
Section Facts.
Context {A B : Type}.
Variable N : nat.
Variable ws : list (A * B).
Variable v0 : A * B.

Lemma upd_eq {X : Type} (f : nat -> X) i x : upd f i x i = x.
Proof. unfold upd. rewrite Nat.eqb_refl. reflexivity. Qed.

Lemma upd_neq {X : Type} (f : nat -> X) i k x : k <> i -> upd f i x k = f k.
Proof. intros H. unfold upd. destruct (Nat.eqb_spec k i); [contradiction | reflexivity]. Qed.

Ltac rw_split :=
  unfold rw_inv; simpl;
  refine (conj _ (conj _ (conj _ (conj _ (conj _ (conj _ (conj _ (conj _ _)))))))).

Lemma rw_inv_init : rw_inv ws v0 (@init A B v0).
Proof.
  unfold init. rw_split.
  - intros i. simpl. tauto.
  - intros j. simpl. split; discriminate.
  - intros H. contradiction H. reflexivity.
  - intros j H. contradiction H. reflexivity.
  - intros i a H. discriminate.
  - intros i a b H. discriminate.
  - intros _. left. destruct v0. reflexivity.
  - intros j v H H'. discriminate.
  - intros j v H H'. discriminate.
Qed.

Lemma rw_inv_step s s' :
  rw_inv ws v0 s -> step N ws s s' -> rw_inv ws v0 s'.
Proof.
  intros [I1 [I2 [I3 [I4 [I5 [I6 [I7 [I8 I9]]]]]]]] Hstep.
  (* a reader holding the lock excludes an active writer *)
  assert (Hex : forall i j, holding (rd s i) -> writer_in s = Some j -> False).
  { intros i j Hh Hw. apply I1 in Hh. rewrite I3 in Hh; [exact Hh | congruence]. }
  destruct Hstep as [s i Hi Hr Hw | s i Hr | s i a Hr | s j v Hv Hwj Hw Hrs
                    | s j v Hv Hwj | s j v Hv Hwj | s j Hwj]; rw_split.
  - (* read_lock *)
    intros k. destruct (Nat.eq_dec k i) as [->|Hne].
    + rewrite upd_eq. simpl. tauto.
    + rewrite upd_neq by exact Hne. rewrite I1. simpl. intuition congruence.
  - exact I2.
  - intros H. contradiction.
  - exact I4.
  - intros k a Ha. destruct (Nat.eq_dec k i) as [->|Hne].
    + rewrite upd_eq in Ha. discriminate.
    + rewrite upd_neq in Ha by exact Hne. eapply I5. exact Ha.
  - intros k a b Ha. destruct (Nat.eq_dec k i) as [->|Hne].
    + rewrite upd_eq in Ha. discriminate.
    + rewrite upd_neq in Ha by exact Hne. eapply I6. exact Ha.
  - exact I7.
  - exact I8.
  - exact I9.
  - (* read_field1 *)
    intros k. destruct (Nat.eq_dec k i) as [->|Hne].
    + rewrite upd_eq, <- I1, Hr. simpl. tauto.
    + rewrite upd_neq by exact Hne. apply I1.
  - exact I2.
  - exact I3.
  - exact I4.
  - intros k a Ha. destruct (Nat.eq_dec k i) as [->|Hne].
    + rewrite upd_eq in Ha. injection Ha as <-. reflexivity.
    + rewrite upd_neq in Ha by exact Hne. eapply I5. exact Ha.
  - intros k a b Ha. destruct (Nat.eq_dec k i) as [->|Hne].
    + rewrite upd_eq in Ha. discriminate.
    + rewrite upd_neq in Ha by exact Hne. eapply I6. exact Ha.
  - exact I7.
  - exact I8.
  - exact I9.
  - (* read_field2_unlock *)
    intros k. destruct (Nat.eq_dec k i) as [->|Hne].
    + rewrite upd_eq. simpl. split; [tauto|]. intros H. apply remove_In in H. exact H.
    + rewrite upd_neq by exact Hne. rewrite I1. split.
      * intros H. apply in_in_remove; assumption.
      * intros H. apply in_remove in H. tauto.
  - exact I2.
  - intros H. rewrite I3 by exact H. reflexivity.
  - exact I4.
  - intros k a0 Ha. destruct (Nat.eq_dec k i) as [->|Hne].
    + rewrite upd_eq in Ha. discriminate.
    + rewrite upd_neq in Ha by exact Hne. eapply I5. exact Ha.
  - intros k a0 b Ha. destruct (Nat.eq_dec k i) as [->|Hne].
    + rewrite upd_eq in Ha. injection Ha as <- <-.
      rewrite (I5 i a Hr). apply I7.
      destruct (writer_in s) as [j|] eqn:E; [|reflexivity].
      exfalso. apply (Hex i j); [rewrite Hr; exact I | reflexivity].
    + rewrite upd_neq in Ha by exact Hne. eapply I6. exact Ha.
  - exact I7.
  - exact I8.
  - exact I9.
  - (* write_lock *)
    exact I1.
  - intros k. destruct (Nat.eq_dec k j) as [->|Hne].
    + rewrite upd_eq. simpl. tauto.
    + rewrite upd_neq by exact Hne. rewrite I2, Hw. split; congruence.
  - intros _. exact Hrs.
  - intros k H. destruct (Nat.eq_dec k j) as [->|Hne]; [eauto|].
    rewrite upd_neq in H by exact Hne. apply I4. exact H.
  - exact I5.
  - exact I6.
  - discriminate.
  - intros k v' Hv' H. destruct (Nat.eq_dec k j) as [->|Hne].
    + rewrite upd_eq in H. discriminate.
    + rewrite upd_neq in H by exact Hne. eapply I8; eauto.
  - intros k v' Hv' H. destruct (Nat.eq_dec k j) as [->|Hne].
    + rewrite upd_eq in H. discriminate.
    + rewrite upd_neq in H by exact Hne. eapply I9; eauto.
  - (* write_field1 *)
    exact I1.
  - intros k. destruct (Nat.eq_dec k j) as [->|Hne].
    + rewrite upd_eq, <- I2, Hwj. simpl. tauto.
    + rewrite upd_neq by exact Hne. apply I2.
  - exact I3.
  - intros k H. destruct (Nat.eq_dec k j) as [->|Hne]; [eauto|].
    rewrite upd_neq in H by exact Hne. apply I4. exact H.
  - intros i a Ha. exfalso. apply (Hex i j); [rewrite Ha; exact I|].
    apply I2. rewrite Hwj. reflexivity.
  - exact I6.
  - intros H. exfalso. assert (writer_in s = Some j) by (apply I2; rewrite Hwj; reflexivity).
    congruence.
  - intros k v' Hv' H. destruct (Nat.eq_dec k j) as [->|Hne].
    + rewrite Hv in Hv'. injection Hv' as <-. reflexivity.
    + rewrite upd_neq in H by exact Hne. exfalso.
      assert (E1 : writer_in s = Some k) by (apply I2; rewrite H; reflexivity).
      assert (E2 : writer_in s = Some j) by (apply I2; rewrite Hwj; reflexivity).
      congruence.
  - intros k v' Hv' H. destruct (Nat.eq_dec k j) as [->|Hne].
    + rewrite upd_eq in H. discriminate.
    + rewrite upd_neq in H by exact Hne. exfalso.
      assert (E1 : writer_in s = Some k) by (apply I2; rewrite H; reflexivity).
      assert (E2 : writer_in s = Some j) by (apply I2; rewrite Hwj; reflexivity).
      congruence.
  - (* write_field2 *)
    exact I1.
  - intros k. destruct (Nat.eq_dec k j) as [->|Hne].
    + rewrite upd_eq, <- I2, Hwj. simpl. tauto.
    + rewrite upd_neq by exact Hne. apply I2.
  - exact I3.
  - intros k H. destruct (Nat.eq_dec k j) as [->|Hne]; [eauto|].
    rewrite upd_neq in H by exact Hne. apply I4. exact H.
  - exact I5.
  - exact I6.
  - intros H. exfalso. assert (writer_in s = Some j) by (apply I2; rewrite Hwj; reflexivity).
    congruence.
  - intros k v' Hv' H. destruct (Nat.eq_dec k j) as [->|Hne].
    + rewrite upd_eq in H. discriminate.
    + rewrite upd_neq in H by exact Hne. exfalso.
      assert (E1 : writer_in s = Some k) by (apply I2; rewrite H; reflexivity).
      assert (E2 : writer_in s = Some j) by (apply I2; rewrite Hwj; reflexivity).
      congruence.
  - intros k v' Hv' H. destruct (Nat.eq_dec k j) as [->|Hne].
    + rewrite Hv in Hv'. injection Hv' as <-.
      rewrite (I8 j v Hv Hwj). destruct v. reflexivity.
    + rewrite upd_neq in H by exact Hne. exfalso.
      assert (E1 : writer_in s = Some k) by (apply I2; rewrite H; reflexivity).
      assert (E2 : writer_in s = Some j) by (apply I2; rewrite Hwj; reflexivity).
      congruence.
  - (* write_unlock *)
    exact I1.
  - intros k. destruct (Nat.eq_dec k j) as [->|Hne].
    + rewrite upd_eq. simpl. split; discriminate.
    + rewrite upd_neq by exact Hne. rewrite I2.
      assert (E2 : writer_in s = Some j) by (apply I2; rewrite Hwj; reflexivity).
      split; congruence.
  - intros H. contradiction H. reflexivity.
  - intros k H. destruct (Nat.eq_dec k j) as [->|Hne].
    + apply I4. rewrite Hwj. discriminate.
    + rewrite upd_neq in H by exact Hne. apply I4. exact H.
  - exact I5.
  - exact I6.
  - intros _. destruct (I4 j) as [v Hv]; [rewrite Hwj; discriminate|].
    right. rewrite (I9 j v Hv Hwj). eapply nth_error_In. exact Hv.
  - intros k v' Hv' H. destruct (Nat.eq_dec k j) as [->|Hne].
    + rewrite upd_eq in H. discriminate.
    + rewrite upd_neq in H by exact Hne. eapply I8; eauto.
  - intros k v' Hv' H. destruct (Nat.eq_dec k j) as [->|Hne].
    + rewrite upd_eq in H. discriminate.
    + rewrite upd_neq in H by exact Hne. eapply I9; eauto.
Qed.

Lemma rw_inv_reachable s : reachable N ws v0 s -> rw_inv ws v0 s.
Proof.
  intros H. apply clos_rt_rtn1 in H.
  induction H as [|y z Hyz _ IH]; [apply rw_inv_init|].
  eapply rw_inv_step; eauto.
Qed.
End Facts.
End RwCellFacts.

(** C6.  In every interleaving of [N] readers, each running one [get],
    with the writers of [ws], each running one [set] of its value, under
    the read-write lock: every [get] that has completed returned a whole
    value, either the value held before any [set] ([v0]) or exactly one of
    the values written, never the first field of one and the second of
    another; and at most one writer is inside the lock at any time.  With
    [ws = [v1]] this is the case of one [set] in flight: each [get] sees
    exactly [v0] or exactly [v1]. *)
Theorem rwcell_get_whole_value {A B : Type} (N : nat) (ws : list (A * B)) (v0 : A * B)
    (s : RwCell.state) :
  RwCell.reachable N ws v0 s ->
  (forall i a b, RwCell.rd s i = RwCell.RDone a b -> (a, b) = v0 \/ In (a, b) ws) /\
  (forall j k, RwCell.writer_active (RwCell.wr s j) = true ->
     RwCell.writer_active (RwCell.wr s k) = true -> j = k).
Proof.
  intros H.
  destruct (RwCellFacts.rw_inv_reachable N ws v0 s H)
    as [_ [I2 [_ [_ [_ [I6 _]]]]]].
  split; [exact I6|].
  intros j k Hj Hk. apply I2 in Hj. apply I2 in Hk. congruence.
Qed.

(** ** Witnesses *)

Lemma resolve_boot_order_topological_witness :
  (exists order,
     resolve_boot_order (registry_of [cC; cB; cA]) = Ok order /\
     Permutation order (ids (registry_of [cC; cB; cA])) /\
     deps_before (registry_of [cC; cB; cA]) order /\
     registration_tie_break (registry_of [cC; cB; cA]) order /\
     (forall order', Permutation order' (ids (registry_of [cC; cB; cA])) ->
        deps_before (registry_of [cC; cB; cA]) order' ->
        registration_tie_break (registry_of [cC; cB; cA]) order' -> order' = order)) /\
  (exists c' d',
     resolve_boot_order (registry_of [mkComponent "a" ["x"]])
       = Err (Component (UnknownDependency (id c') d')) /\
     In c' (registry_of [mkComponent "a" ["x"]]) /\ In d' (dependencies c') /\
     ~ In d' (ids (registry_of [mkComponent "a" ["x"]]))).
Proof.
  assert (Hk : forall c d, In c (registry_of [cC; cB; cA]) -> In d (dependencies c) ->
     In d (ids (registry_of [cC; cB; cA]))).
  { intros c d Hc Hd. vm_compute in Hc.
    destruct Hc as [<-|[<-|[<-|[]]]]; vm_compute in Hd;
      first [destruct Hd as [<-|[]] | destruct Hd]; vm_compute; auto. }
  assert (Ha : acyclic (registry_of [cC; cB; cA])).
  { exact (resolve_ok_acyclic (registry_of [cC; cB; cA]) ["a"; "c"; "b"]
             (registry_of_nodup _) eq_refl). }
  split.
  - exact (proj1 (resolve_boot_order_topological [cC; cB; cA] Ha) Hk).
  - apply (proj2 (resolve_boot_order_topological [mkComponent "a" ["x"]] single_unknown_acyclic)
             (mkComponent "a" ["x"]) "x").
    + left. reflexivity.
    + left. reflexivity.
    + simpl. intros [H|[]]. discriminate.
Defined.

Lemma resolve_boot_order_cyclic_witness :
  clos_trans _ (dep_edge (registry_of [mkComponent "a" ["b"]; mkComponent "b" ["a"]])) "a" "a" /\
  (exists ps, resolve_boot_order (registry_of [mkComponent "a" ["b"]; mkComponent "b" ["a"]])
              = Err (Component (CyclicDependency ps))) /\
  calls (snd (components_boot (fun _ => true)
                (registry_of [mkComponent "a" ["b"]; mkComponent "b" ["a"]]))) = [].
Proof.
  assert (Hc : clos_trans _ (dep_edge (registry_of [mkComponent "a" ["b"]; mkComponent "b" ["a"]]))
                 "a" "a").
  { apply t_trans with "b"; apply t_step.
    - exists (mkComponent "a" ["b"]). vm_compute. auto.
    - exists (mkComponent "b" ["a"]). vm_compute. auto. }
  destruct (resolve_boot_order_cyclic [mkComponent "a" ["b"]; mkComponent "b" ["a"]]
              (fun _ => true) "a" Hc) as [H1 [_ [H3 _]]].
  split; [exact Hc|]. split; [exact H1 | exact H3].
Defined.

Lemma boot_init_failure_witness :
  resolve_boot_order (registry_of [cA; cB; cC]) = Ok ["a"; "b"; "c"] /\
  init_fails_b "a" = true /\ init_fails_b "b" = false /\
  fst (components_boot init_fails_b (registry_of [cA; cB; cC]))
    = Err (Component (InitFailed "b")) /\
  states (snd (components_boot init_fails_b (registry_of [cA; cB; cC]))) "b" = Failed /\
  states (snd (components_boot init_fails_b (registry_of [cA; cB; cC]))) "a" = Ready /\
  states (snd (components_boot init_fails_b (registry_of [cA; cB; cC]))) "c" = Registered /\
  boot_order (snd (components_boot init_fails_b (registry_of [cA; cB; cC]))) = ["a"] /\
  calls (snd (components_boot init_fails_b (registry_of [cA; cB; cC])))
    = [CallInit "a"; CallInit "b"].
Proof.
  assert (Hr : resolve_boot_order (registry_of [cA; cB; cC]) = Ok ["a"; "b"; "c"])
    by reflexivity.
  destruct (boot_init_failure [cA; cB; cC] init_fails_b ["a"; "b"; "c"] ["a"] "b" ["c"]
              (fst (components_boot init_fails_b (registry_of [cA; cB; cC])))
              (snd (components_boot init_fails_b (registry_of [cA; cB; cC])))
              Hr eq_refl
              (fun x Hx => match Hx with
                           | or_introl E => eq_ind "a" (fun y => init_fails_b y = true) eq_refl x E
                           | or_intror F => False_ind _ F
                           end)
              eq_refl (surjective_pairing _))
    as [E1 [E2 [E3 [_ [E5 [E6 E7]]]]]].
  split; [exact Hr|]. split; [reflexivity|]. split; [reflexivity|].
  split; [exact E1|]. split; [exact E2|].
  split; [apply E3; left; reflexivity|].
  split; [apply E5; left; reflexivity|].
  split; [exact E6 | exact E7].
Defined.

Lemma get_after_set_witness :
  no_set [@OpGet nat; OpGet] /\
  get (set global_config_new 5) = Ok 5 /\
  (forall r, In r (fst (run_ops (set global_config_new 5) [@OpGet nat; OpGet])) -> r = Ok 5).
Proof.
  assert (Hn : no_set [@OpGet nat; OpGet]) by (intros v [H|[H|[]]]; discriminate).
  split; [exact Hn|].
  exact (get_after_set global_config_new 5 [OpGet; OpGet] Hn).
Defined.

Lemma get_before_set_witness :
  no_set [@OpGet nat; OpGet] /\
  (forall r, In r (fst (run_ops global_config_new [@OpGet nat; OpGet]))
     -> r = Err (Config NotInitialized)).
Proof.
  assert (Hn : no_set [@OpGet nat; OpGet]) by (intros v [H|[H|[]]]; discriminate).
  split; [exact Hn|].
  exact (get_before_set [OpGet; OpGet] Hn).
Defined.

(** Project the fields of a state built by a step, so that the next
    state does not copy the previous one. *)
Ltac rw_norm :=
  cbn [RwCell.field1 RwCell.field2 RwCell.readers_in RwCell.writer_in RwCell.rd RwCell.wr
       RwCell.init fst snd].

Lemma rwcell_get_whole_value_witness :
  exists s,
    RwCell.reachable 2 [(1, true)] (0, false) s /\
    RwCell.wr s 0 = RwCell.WDone /\
    RwCell.rd s 0 = RwCell.RDone 0 false /\
    RwCell.rd s 1 = RwCell.RDone 1 true /\
    ((0, false) = (0, false) \/ In (0, false) [(1, true)]) /\
    ((1, true) = (0, false) \/ In (1, true) [(1, true)]).
Proof.
  (* reader 0 runs before the set, reader 1 after it *)
  assert (Hr : exists s, RwCell.reachable 2 [(1, true)] (0, false) s /\
             RwCell.wr s 0 = RwCell.WDone /\
             RwCell.rd s 0 = RwCell.RDone 0 false /\ RwCell.rd s 1 = RwCell.RDone 1 true).
  { eexists. split; [|split; [|split]].
    - unfold RwCell.reachable.
      eapply rt_trans; [apply rt_step; apply (RwCell.read_lock _ _ _ 0); first [lia | reflexivity]|]; rw_norm.
      eapply rt_trans; [apply rt_step; apply (RwCell.read_field1 _ _ _ 0); reflexivity|]; rw_norm.
      eapply rt_trans; [apply rt_step; apply (RwCell.read_field2_unlock _ _ _ 0 0); reflexivity|]; rw_norm.
      eapply rt_trans; [apply rt_step; apply (RwCell.write_lock _ _ _ 0 (1, true)); reflexivity|]; rw_norm.
      eapply rt_trans; [apply rt_step; apply (RwCell.write_field1 _ _ _ 0 (1, true)); reflexivity|]; rw_norm.
      eapply rt_trans; [apply rt_step; apply (RwCell.write_field2 _ _ _ 0 (1, true)); reflexivity|]; rw_norm.
      eapply rt_trans; [apply rt_step; apply (RwCell.write_unlock _ _ _ 0); reflexivity|]; rw_norm.
      eapply rt_trans; [apply rt_step; apply (RwCell.read_lock _ _ _ 1); first [lia | reflexivity]|]; rw_norm.
      eapply rt_trans; [apply rt_step; apply (RwCell.read_field1 _ _ _ 1); reflexivity|]; rw_norm.
      apply rt_step. apply (RwCell.read_field2_unlock _ _ _ 1 1). reflexivity.
    - reflexivity.
    - reflexivity.
    - reflexivity. }
  destruct Hr as [s [Hs [Hw [H0 H1]]]].
  exists s. split; [exact Hs|]. split; [exact Hw|]. split; [exact H0|]. split; [exact H1|].
  split.
  - exact (proj1 (rwcell_get_whole_value 2 [(1, true)] (0, false) s Hs) 0 0 false H0).
  - exact (proj1 (rwcell_get_whole_value 2 [(1, true)] (0, false) s Hs) 1 1 true H1).
Defined.

Lemma register_duplicate_witness :
  In (id cA) (ids [cA]) /\
  register [cA] cA = (Err (Component (DuplicateId "a")), [cA]).
Proof.
  assert (H : In (id cA) (ids [cA])) by (left; reflexivity).
  split; [exact H|].
  exact (register_duplicate [cA] cA H).
Defined.

(** ** Crate root under every feature set *)

Lemma mem_filter_mem f l fs :
  mem f (filter (fun g => mem g fs) l) = mem f l && mem f fs.
Proof.
  apply Bool.eq_true_iff_eq. rewrite Bool.andb_true_iff, !mem_spec, filter_In, mem_spec.
  reflexivity.
Qed.

(** Only the features the crate tests matter. *)
Lemma enabled_items_canon env : enabled_items env = enabled_items (canon env).
Proof.
  unfold enabled_items. apply filter_ext_in. intros it H.
  unfold canon. simpl in H.
  repeat (destruct H as [<- | H]; [cbn [gate_holds item_gate feature cfg_holds forallb features cfg_test];
                                   rewrite ?mem_filter_mem; reflexivity |]).
  destruct H.
Qed.

(** Unfold the crate's items and case on every [cfg] bit left. *)
Ltac crate_cases fs t :=
  unfold unresolved_imports, root_exports, public_modules, compiled_modules, linked_crates,
    public_crates, macro_scoped_modules;
  rewrite !(enabled_items_canon (mkEnv fs t));
  unfold canon, crate_features; cbn [features cfg_test filter];
  repeat match goal with
  | |- context [mem ?f fs] => destruct (mem f fs)
  end;
  try destruct t.

(** One goal per element of a concrete list. *)
Ltac in_cases H :=
  simpl in H;
  repeat match type of H with
  | _ \/ _ => destruct H as [<- | H]
  | False => destruct H
  end.

(** The root [use config::{ConfigReader, GlobalConfig}] carries no [cfg]
    while [mod config] is compiled only with feature [config]: every other
    root [use] resolves under every feature set, and this one resolves
    exactly when [config] is enabled, so the crate resolves its imports
    iff [config] is on. *)
Theorem unresolved_imports_config env :
  unresolved_imports env =
    (if mem "config" (features env) then [] else [("config", ["ConfigReader"; "GlobalConfig"])]) /\
  (unresolved_imports env = [] <-> In "config" (features env)).
Proof.
  destruct env as [fs t]. simpl features. rewrite <- mem_spec.
  crate_cases fs t; vm_compute; split; try reflexivity; split; first [reflexivity | discriminate].
Qed.

(** The names re-exported at the crate root with no [cfg] gate are
    exported under every feature set under which the root imports resolve
    (by [unresolved_imports_config], those with feature [config]). *)
Theorem root_exports_always env n :
  unresolved_imports env = [] ->
  In n ["ConfigReader"; "GlobalConfig"; "Error"; "Fail"; "FrameworkError";
        "FrameworkErrorKind"; "status"; "ColorConfig"; "Stream"] ->
  In n (root_exports env).
Proof.
  intros Hu H. apply mem_spec. destruct env as [fs t]. revert Hu.
  in_cases H; crate_cases fs t; vm_compute; intros Hu; first [reflexivity | discriminate Hu].
Qed.

(** Each gated root re-export is there exactly when its feature is on;
    in particular [Version] needs feature [application], although its
    module [util] is compiled and public under every feature set. *)
Theorem root_exports_gated env :
  (forall n, In n ["boot"; "Application"; "ApplicationPath"; "Component"; "Components"; "Version"] ->
     (In n (root_exports env) <-> In "application" (features env))) /\
  (forall n, In n ["Callable"; "Command"; "Options"] ->
     (In n (root_exports env) <-> In "options" (features env))) /\
  (In "LoggingConfig" (root_exports env) <-> In "logging" (features env)) /\
  (In "Secret" (root_exports env) <-> In "secrets" (features env)) /\
  In "util" (compiled_modules env) /\ In "util" (public_modules env).
Proof.
  destruct env as [fs t]. simpl features.
  split; [|split; [|split; [|split; [|split]]]].
  - intros n H. rewrite <- !mem_spec. in_cases H; crate_cases fs t; vm_compute; apply iff_refl.
  - intros n H. rewrite <- !mem_spec. in_cases H; crate_cases fs t; vm_compute; apply iff_refl.
  - rewrite <- !mem_spec. crate_cases fs t; vm_compute; apply iff_refl.
  - rewrite <- !mem_spec. crate_cases fs t; vm_compute; apply iff_refl.
  - apply mem_spec. crate_cases fs t; reflexivity.
  - apply mem_spec. crate_cases fs t; reflexivity.
Qed.

(** The modules [application], [command], [error] and [logging] are
    private under every feature set, so their items reach users only
    through the root re-exports; [error] is compiled under every feature
    set.  The public modules are [macros], [shell] and [util] always, and
    [config], [options] and [secrets] exactly with their features. *)
Theorem public_modules_by_feature env :
  (forall m, In m ["application"; "command"; "error"; "logging"] -> ~ In m (public_modules env)) /\
  In "error" (compiled_modules env) /\
  (forall m, In m ["macros"; "shell"; "util"] -> In m (public_modules env)) /\
  (In "config" (public_modules env) <-> In "config" (features env)) /\
  (In "options" (public_modules env) <-> In "options" (features env)) /\
  (In "secrets" (public_modules env) <-> In "secrets" (features env)).
Proof.
  destruct env as [fs t]. simpl features.
  split; [|split; [|split; [|split; [|split]]]].
  - intros m H. rewrite <- mem_spec. in_cases H; crate_cases fs t; vm_compute; discriminate.
  - apply mem_spec. crate_cases fs t; reflexivity.
  - intros m H. apply mem_spec. in_cases H; crate_cases fs t; reflexivity.
  - rewrite <- !mem_spec. crate_cases fs t; vm_compute; apply iff_refl.
  - rewrite <- !mem_spec. crate_cases fs t; vm_compute; apply iff_refl.
  - rewrite <- !mem_spec. crate_cases fs t; vm_compute; apply iff_refl.
Qed.

(** The crates linked in: [abscissa_derive], [failure], [lazy_static] and
    [term] always; [serde] exactly with feature [config], [log] with
    [logging], [simplelog] with [simplelog], and [assert_matches] exactly
    when compiling the tests with feature [options]. *)
Theorem linked_crates_by_feature env :
  (forall c, In c ["abscissa_derive"; "failure"; "lazy_static"; "term"] -> In c (linked_crates env)) /\
  (In "serde" (linked_crates env) <-> In "config" (features env)) /\
  (In "log" (linked_crates env) <-> In "logging" (features env)) /\
  (In "simplelog" (linked_crates env) <-> In "simplelog" (features env)) /\
  (In "assert_matches" (linked_crates env) <-> cfg_test env = true /\ In "options" (features env)).
Proof.
  destruct env as [fs t]. cbn [features cfg_test].
  split; [|split; [|split; [|split]]].
  - intros c H. apply mem_spec. in_cases H; crate_cases fs t; reflexivity.
  - rewrite <- !mem_spec. crate_cases fs t; vm_compute; apply iff_refl.
  - rewrite <- !mem_spec. crate_cases fs t; vm_compute; apply iff_refl.
  - rewrite <- !mem_spec. crate_cases fs t; vm_compute; apply iff_refl.
  - rewrite <- !mem_spec. crate_cases fs t; vm_compute;
      intuition (first [reflexivity | discriminate]).
Qed.

(** The crates re-exported to users ([pub extern crate]) are [failure],
    under every feature set, and [log], exactly with feature [logging]. *)
Theorem public_crates_by_feature env c :
  In c (public_crates env) <-> c = "failure" \/ (c = "log" /\ In "logging" (features env)).
Proof.
  destruct env as [fs t]. simpl features. rewrite <- (mem_spec "logging").
  crate_cases fs t; vm_compute; intuition congruence.
Qed.

(** [macros] is declared with [#[macro_use]] before every other module,
    so under every feature set its macros are in scope in every other
    compiled module. *)
Theorem macros_in_scope_everywhere env m :
  In m (compiled_modules env) -> m <> "macros" -> In m (macro_scoped_modules env).
Proof.
  destruct env as [fs t]. intros H Hne. revert H.
  crate_cases fs t; vm_compute; intros H; intuition congruence.
Qed.

Lemma root_exports_always_witness :
  unresolved_imports (mkEnv ["config"] false) = [] /\
  In "Error" (root_exports (mkEnv ["config"] false)).
Proof.
  assert (Hu : unresolved_imports (mkEnv ["config"] false) = []) by reflexivity.
  split; [exact Hu|].
  apply (root_exports_always (mkEnv ["config"] false) "Error" Hu).
  apply mem_spec. reflexivity.
Defined.

Lemma macros_in_scope_everywhere_witness :
  In "application" (macro_scoped_modules (mkEnv ["application"] false)).
Proof.
  apply (macros_in_scope_everywhere (mkEnv ["application"] false) "application").
  - apply mem_spec. reflexivity.
  - discriminate.
Defined.
